(** * PageRank: the transition model, the sampling estimator and the
      iterative solver of [pagerank.py], embedded over exact rationals,
      and the solver once more over binary64.

    Python's floats are modelled by [Q] (exact rationals), dictionaries by
    [gmap string _], sets of page names by [gset string].  A Python
    exception is an explicit [Raise]; the [while True] loop of the solver
    runs on fuel, and its termination is proved separately.

    Python dictionaries iterate in insertion order; the model iterates in
    the order of [map_to_list].  Every result over [Q] below is a
    statement about dictionary contents or about rational sums, which do
    not depend on that order.

    Whether the loop of the solver ends does depend on the rounding of
    the floats.  The module [Float64] embeds [iterate_pagerank] a second
    time, with the arithmetic of the source (binary64, round to nearest
    even, every operation in the order the source performs it) and with
    dictionaries as lists of items in insertion order. *)

From Stdlib Require Import QArith Qabs Qround Lia Lqa.
From Stdlib Require PrimFloat.
From stdpp Require Import gmap strings list fin_maps sorting.

(** ** Exceptions and the error monad *)

Inductive exn : Type :=
  | KeyError
  | IndexError
  | ValueError
  | ZeroDivisionError
  | UnboundLocalError
  | OSError
  | UnicodeDecodeError.

Inductive result (A : Type) : Type :=
  | Ok (a : A)
  | Raise (e : exn).
Arguments Ok {A} a.
Arguments Raise {A} e.

Global Instance result_ret : MRet result := λ A a, Ok a.
Global Instance result_bind : MBind result := λ A B f m,
  match m with
  | Ok a => f a
  | Raise e => Raise e
  end.

(** ** Python primitives *)

(** [len(x)] as a rational, for use as a divisor. *)
Definition Qlen (n : nat) : Q := inject_Z (Z.of_nat n).

(** [d[k]]: a [KeyError] when the key is missing. *)
Definition getitem {A} (d : gmap string A) (k : string) : result A :=
  match d !! k with
  | Some v => Ok v
  | None => Raise KeyError
  end.

(** [a / len(x)]: true division, a [ZeroDivisionError] on a zero length. *)
Definition truediv (a : Q) (n : nat) : result Q :=
  if decide (n = 0%nat) then Raise ZeroDivisionError else Ok (a / Qlen n)%Q.

(** Reading a local variable that is bound on some paths only. *)
Definition read_local {A} (v : option A) : result A :=
  match v with
  | Some a => Ok a
  | None => Raise UnboundLocalError
  end.

(** [d.keys()] and [d.items()], in the iteration order of the model. *)
Definition items {A} (d : gmap string A) : list (string * A) := map_to_list d.
Definition keys {A} (d : gmap string A) : list string := (items d).*1.

(** [for x in l: body], threading the state the body mutates. *)
Fixpoint for_each {A S} (l : list A) (body : A → S → result S) (s : S)
  : result S :=
  match l with
  | [] => Ok s
  | x :: l' => s' ← body x s; for_each l' body s'
  end.

(** ** [transition_model] (pagerank.py, lines 53-78) *)

Definition transition_model (corpus : gmap string (gset string))
    (page : string) (damping_factor : Q) : result (gmap string Q) :=
  avail ← getitem corpus page;
  '(prob_page, prob_link) ←
    (if decide (size avail = 0%nat) then
       prob_page ← truediv 1 (size corpus);
       Ok (prob_page, None)
     else
       prob_page ← truediv (1 - damping_factor) (size corpus);
       prob_link ← truediv damping_factor (size avail);
       Ok (prob_page, Some prob_link));
  for_each (keys corpus) (λ page probability,
    if decide (page ∈ avail) then
      prob_link ← read_local prob_link;
      Ok (<[page := (prob_page + prob_link)%Q]> probability)
    else
      Ok (<[page := prob_page]> probability)) ∅.

(** ** Randomness

    [random.choice] and [numpy.random.choice] are library code; they are
    modelled from their documented algorithms, with the random source made
    explicit: [seed] is the raw integer behind the one call to
    [random.choice], [uniform i] is the variate in [0,1) that the [i]-th
    call to [numpy.random.choice] obtains from [random_sample]. *)

Global Instance Qlt_dec : RelDecision Qlt :=
  λ x y, decide (Qnum x * QDen y < Qnum y * QDen x)%Z.
Global Instance Qle_dec : RelDecision Qle :=
  λ x y, decide (Qnum x * QDen y ≤ Qnum y * QDen x)%Z.

Definition Qsum (l : list Q) : Q := foldr Qplus 0%Q l.

(** [l[i]] on a list. *)
Definition list_getitem {A} (l : list A) (i : nat) : result A :=
  match l !! i with
  | Some v => Ok v
  | None => Raise IndexError
  end.

(** [range(n)] for a Python integer [n]: empty when [n <= 0]. *)
Definition range (n : Z) : list nat := seq 0 (Z.to_nat n).

(** [random.choice(seq)]: [seq[_randbelow(len(seq))]], an [IndexError] on
    an empty sequence. *)
Definition random_choice (seed : nat) (sequence : list string) : result string :=
  if decide (length sequence = 0%nat) then Raise IndexError
  else list_getitem sequence (seed mod length sequence).

(** [p.cumsum()] *)
Fixpoint cumsum_from (acc : Q) (p : list Q) : list Q :=
  match p with
  | [] => []
  | x :: p' => (acc + x)%Q :: cumsum_from (acc + x)%Q p'
  end.
Definition cumsum (p : list Q) : list Q := cumsum_from 0%Q p.

(** [cdf.searchsorted(u, side='right')] on an ascending array: the number
    of leading entries that are [<= u]. *)
Fixpoint searchsorted_right (cdf : list Q) (u : Q) : nat :=
  match cdf with
  | [] => 0%nat
  | c :: cdf' => if decide (u < c)%Q then 0%nat else S (searchsorted_right cdf' u)
  end.

(** [sqrt(finfo(float64).eps)], that is, 2^-26. *)
Definition atol : Q := 1 # 67108864.

(** An element read from a numpy array of strings: numpy stores the
    strings at a fixed width, padded with NUL characters, and gives an
    element back without its trailing NUL characters. *)
Fixpoint rstrip_nul (s : string) : string :=
  match s with
  | EmptyString => EmptyString
  | String c s' =>
    let r := rstrip_nul s' in
    if Ascii.eqb c (Ascii.ascii_of_nat 0) && String.eqb r EmptyString
    then EmptyString
    else String c r
  end.

(** [numpy.random.choice(a, p=p)] with one sample: the argument checks,
    then inversion of the normalised cumulative distribution at [u], and
    the element of the array of strings at that index. *)
Definition np_random_choice (u : Q) (a : list string) (p : list Q)
  : result string :=
  if decide (length a = 0%nat) then Raise ValueError
  else if decide (length p ≠ length a) then Raise ValueError
  else if existsb (λ x, bool_decide (x < 0)%Q) p then Raise ValueError
  else if decide (atol < Qabs (Qsum p - 1))%Q then Raise ValueError
  else
    let cdf := cumsum p in
    let cdf := (λ c, c / List.last cdf 0)%Q <$> cdf in
    let idx := searchsorted_right cdf u in
    element ← list_getitem a idx;
    Ok (rstrip_nul element).

(** ** [sample_pagerank] (pagerank.py, lines 82-105) *)

(** [sample.count(page)] *)
Definition count (page : string) (sample : list string) : nat :=
  length (filter (λ x, x = page) sample).

(** Lines 97-100: the body of the sampling loop, at index [i]. *)
Definition sample_step (uniform : nat → Q)
    (corpus : gmap string (gset string)) (damping_factor : Q)
    (i : nat) (sample : list string) : result (list string) :=
  current_page ← list_getitem sample i;
  probabilities ← transition_model corpus current_page damping_factor;
  next_page ← np_random_choice (uniform i)
                 (keys probabilities) (items probabilities).*2;
  Ok (sample ++ [next_page]).

(** Lines 91-100: the visited sequence. *)
Definition sample_walk (seed : nat) (uniform : nat → Q)
    (corpus : gmap string (gset string)) (damping_factor : Q) (n : Z)
  : result (list string) :=
  page ← random_choice seed (keys corpus);
  for_each (range n) (sample_step uniform corpus damping_factor) [page].

(** Lines 102-105: visit frequencies. *)
Definition frequencies (corpus : gmap string (gset string))
    (sample : list string) : result (gmap string Q) :=
  for_each (keys corpus) (λ page dict_page,
    v ← truediv (Qlen (count page sample)) (length sample);
    Ok (<[page := v]> dict_page)) ∅.

Definition sample_pagerank (seed : nat) (uniform : nat → Q)
    (corpus : gmap string (gset string)) (damping_factor : Q) (n : Z)
  : result (gmap string Q) :=
  sample ← sample_walk seed uniform corpus damping_factor n;
  frequencies corpus sample.

(** ** [iterate_pagerank] (pagerank.py, lines 111-151) *)

(** Lines 131-140: the new rank of [page] from the previous round. *)
Definition final_prob (corpus : gmap string (gset string))
    (damping_factor : Q) (prev_rank : gmap string Q) (page : string)
  : result Q :=
  prob_1 ← truediv (1 - damping_factor) (size corpus);
  prob_2 ← for_each (items corpus) (λ '(prev_page, page_links) prob_2,
    let page_links :=
      if decide (size page_links = 0%nat) then dom corpus else page_links in
    if decide (page ∈ page_links) then
      r ← getitem prev_rank prev_page;
      c ← truediv r (size page_links);
      Ok (prob_2 + c)%Q
    else Ok prob_2) 0%Q;
  Ok (prob_1 + damping_factor * prob_2)%Q.

(** Lines 130-141: one pass over the pages, writing into [pagerank]. *)
Definition update_round (corpus : gmap string (gset string))
    (damping_factor : Q) (prev_rank pagerank : gmap string Q)
  : result (gmap string Q) :=
  for_each (keys corpus) (λ page pagerank,
    v ← final_prob corpus damping_factor prev_rank page;
    Ok (<[page := v]> pagerank)) pagerank.

(** The convergence threshold written in the source, 0.001. *)
Definition threshold : Q := 1 # 1000.

(** Lines 143-147: the per-page convergence flags. *)
Definition update_flags (prev_rank pagerank : gmap string Q)
    (flg : gmap string bool) : result (gmap string bool) :=
  for_each (keys prev_rank) (λ page flg,
    a ← getitem prev_rank page;
    b ← getitem pagerank page;
    if decide (Qabs (a - b) < threshold)%Q
    then Ok (<[page := true]> flg)
    else Ok (<[page := false]> flg)) flg.

(** [all(flg.values())] *)
Definition all_values (flg : gmap string bool) : bool :=
  forallb (λ b, b) (items flg).*2.

(** The state of the [while] loop, and what one round does with it. *)
Record loop_state : Type := LoopState {
  st_prev_rank : gmap string Q;
  st_pagerank : gmap string Q;
  st_flg : gmap string bool
}.

Inductive control : Type :=
  | Break (pagerank : gmap string Q)
  | Continue (st : loop_state).

(** Lines 130-150: one round of the loop. *)
Definition loop_body (corpus : gmap string (gset string))
    (damping_factor : Q) (st : loop_state) : result control :=
  pagerank ← update_round corpus damping_factor
                (st_prev_rank st) (st_pagerank st);
  flg ← update_flags (st_prev_rank st) pagerank (st_flg st);
  if all_values flg then Ok (Break pagerank)
  else Ok (Continue (LoopState pagerank pagerank flg)).

(** [while True], on fuel: [None] when the fuel runs out. *)
Fixpoint iterate_loop (fuel : nat) (corpus : gmap string (gset string))
    (damping_factor : Q) (st : loop_state) : option (result (gmap string Q)) :=
  match fuel with
  | O => None
  | S fuel' =>
    match loop_body corpus damping_factor st with
    | Raise e => Some (Raise e)
    | Ok (Break pagerank) => Some (Ok pagerank)
    | Ok (Continue st') => iterate_loop fuel' corpus damping_factor st'
    end
  end.

(** Lines 121-126: the uniform initial state. *)
Definition initial_state (corpus : gmap string (gset string))
  : result loop_state :=
  pagerank ← for_each (keys corpus) (λ page pagerank,
    v ← truediv 1 (size corpus);
    Ok (<[page := v]> pagerank)) ∅;
  let prev_rank := pagerank in
  let flg := list_to_map ((λ key, (key, false)) <$> keys prev_rank) in
  Ok (LoopState prev_rank pagerank flg).

Definition iterate_pagerank (fuel : nat) (corpus : gmap string (gset string))
    (damping_factor : Q) : option (result (gmap string Q)) :=
  match initial_state corpus with
  | Raise e => Some (Raise e)
  | Ok st => iterate_loop fuel corpus damping_factor st
  end.

(** ** [iterate_pagerank] in binary64 (pagerank.py, lines 111-151)

    The same statements as above, line by line, with Python's floats as
    the binary64 numbers of the kernel: [+], [-], [*], [/], [abs] and [<]
    are the IEEE 754 operations that CPython performs.  A dictionary is
    the list of its items in insertion order, so that [prob_2] adds its
    terms in the order of [corpus.items()]. *)

Module Float64.
Import PrimFloat.

Definition dict (A : Type) : Type := list (string * A).

(** [d.keys()], [d.values()] and [d.items()] (the list itself). *)
Definition keys {A} (d : dict A) : list string := d.*1.
Definition values {A} (d : dict A) : list A := d.*2.

(** [d[k]]: a [KeyError] when the key is missing. *)
Fixpoint getitem {A} (d : dict A) (k : string) : result A :=
  match d with
  | [] => Raise KeyError
  | (k', v) :: d' => if decide (k' = k) then Ok v else getitem d' k
  end.

(** [d[k] = v]: a key already present keeps its place, a new one goes
    last. *)
Fixpoint setitem {A} (d : dict A) (k : string) (v : A) : dict A :=
  match d with
  | [] => [(k, v)]
  | (k', v') :: d' =>
    if decide (k' = k) then (k', v) :: d' else (k', v') :: setitem d' k v
  end.

(** The float of a length.  Every step of the conversion is exact for
    lengths below 2^53, where Python's conversion of an [int] is exact
    too. *)
Fixpoint of_pos (p : positive) : float :=
  match p with
  | xH => 1
  | xO p => 2 * of_pos p
  | xI p => 2 * of_pos p + 1
  end%float.

Definition of_len (n : nat) : float :=
  match N.of_nat n with
  | N0 => 0%float
  | Npos p => of_pos p
  end.

(** [a / len(x)]: true division, a [ZeroDivisionError] on a zero length. *)
Definition truediv (a : float) (n : nat) : result float :=
  if decide (n = 0%nat) then Raise ZeroDivisionError
  else Ok (a / of_len n)%float.

(** Lines 131-140: the new rank of [page] from the previous round.  The
    links of a page are used for a membership test and for their number
    only; they are the elements of the out-set or, for an empty out-set,
    the keys of the corpus (line 136). *)
Definition final_prob (corpus : dict (gset string)) (damping_factor : float)
    (prev_rank : dict float) (page : string) : result float :=
  prob_1 ← truediv (1 - damping_factor) (length (keys corpus));
  prob_2 ← for_each corpus (λ '(prev_page, page_links) prob_2,
    let page_links :=
      if decide (size page_links = 0%nat) then keys corpus
      else elements page_links in
    if decide (page ∈ page_links) then
      r ← getitem prev_rank prev_page;
      c ← truediv r (length page_links);
      Ok (prob_2 + c)%float
    else Ok prob_2) 0%float;
  Ok (prob_1 + damping_factor * prob_2)%float.

(** Lines 130-141: one pass over the pages, writing into [pagerank]. *)
Definition update_round (corpus : dict (gset string)) (damping_factor : float)
    (prev_rank pagerank : dict float) : result (dict float) :=
  for_each (keys corpus) (λ page pagerank,
    v ← final_prob corpus damping_factor prev_rank page;
    Ok (setitem pagerank page v)) pagerank.

(** The literal [0.001] of line 144: the binary64 number nearest to
    1/1000. *)
Definition threshold : float := 0x1.0624dd2f1a9fcp-10%float.

(** Lines 143-147: the per-page convergence flags. *)
Definition update_flags (prev_rank pagerank : dict float) (flg : dict bool)
  : result (dict bool) :=
  for_each (keys prev_rank) (λ page flg,
    a ← getitem prev_rank page;
    b ← getitem pagerank page;
    if (abs (a - b) <? threshold)%float
    then Ok (setitem flg page true)
    else Ok (setitem flg page false)) flg.

(** [all(flg.values())] *)
Definition all_values (flg : dict bool) : bool :=
  forallb (λ b, b) (values flg).

Record loop_state : Type := LoopState {
  st_prev_rank : dict float;
  st_pagerank : dict float;
  st_flg : dict bool
}.

Inductive control : Type :=
  | Break (pagerank : dict float)
  | Continue (st : loop_state).

(** Lines 130-150: one round of the loop. *)
Definition loop_body (corpus : dict (gset string)) (damping_factor : float)
    (st : loop_state) : result control :=
  pagerank ← update_round corpus damping_factor
                (st_prev_rank st) (st_pagerank st);
  flg ← update_flags (st_prev_rank st) pagerank (st_flg st);
  if all_values flg then Ok (Break pagerank)
  else Ok (Continue (LoopState pagerank pagerank flg)).

(** [while True], on fuel: [None] when the fuel runs out. *)
Fixpoint iterate_loop (fuel : nat) (corpus : dict (gset string))
    (damping_factor : float) (st : loop_state)
  : option (result (dict float)) :=
  match fuel with
  | O => None
  | S fuel' =>
    match loop_body corpus damping_factor st with
    | Raise e => Some (Raise e)
    | Ok (Break pagerank) => Some (Ok pagerank)
    | Ok (Continue st') => iterate_loop fuel' corpus damping_factor st'
    end
  end.

(** Lines 121-126: the uniform initial state. *)
Definition initial_state (corpus : dict (gset string)) : result loop_state :=
  pagerank ← for_each (keys corpus) (λ page pagerank,
    v ← truediv 1 (length (keys corpus));
    Ok (setitem pagerank page v)) [];
  let prev_rank := pagerank in
  let flg := foldl (λ flg key, setitem flg key false) [] (keys prev_rank) in
  Ok (LoopState prev_rank pagerank flg).

Definition iterate_pagerank (fuel : nat) (corpus : dict (gset string))
    (damping_factor : float) : option (result (dict float)) :=
  match initial_state corpus with
  | Raise e => Some (Raise e)
  | Ok st => iterate_loop fuel corpus damping_factor st
  end.

(** The corpus as a dictionary: no key twice. *)
Definition well_formed (corpus : dict (gset string)) : Prop :=
  NoDup (keys corpus).

(** Every link leads to a page of the corpus. *)
Definition closed (corpus : dict (gset string)) : Prop :=
  Forall (λ item, item.2 ⊆ list_to_set (keys corpus)) corpus.

(** A damping factor strictly between 0 and 1. *)
Definition in_unit_interval (damping_factor : float) : Prop :=
  (0 <? damping_factor)%float = true ∧ (damping_factor <? 1)%float = true.

(** Eight pages: page 0 links to pages 1 and 2, which link back to it;
    pages 3 to 7 form a ring. *)
Definition eight_pages : dict (gset string) :=
  [("0", {["1"; "2"]}); ("1", {["0"]}); ("2", {["0"]}); ("3", {["4"]});
   ("4", {["5"]}); ("5", {["6"]}); ("6", {["7"]}); ("7", {["3"]})].

(** The largest binary64 number below 1, that is 1 - 2^-53. *)
Definition near_one : float := 0x1.fffffffffffffp-1%float.

(** The two rank dictionaries between which the rounds on [eight_pages]
    alternate under [near_one], and the flags of each of these rounds. *)
Definition level : dict float :=
  [("0", 0.125); ("1", 0.125); ("2", 0.125); ("3", 0.125);
   ("4", 0.125); ("5", 0.125); ("6", 0.125); ("7", 0.125)]%float.

Definition tilted : dict float :=
  [("0", 0.25); ("1", 0.0625); ("2", 0.0625); ("3", 0.125);
   ("4", 0.125); ("5", 0.125); ("6", 0.125); ("7", 0.125)]%float.

Definition unsettled : dict bool :=
  [("0", false); ("1", false); ("2", false); ("3", true);
   ("4", true); ("5", true); ("6", true); ("7", true)].

Definition no_flags : dict bool :=
  [("0", false); ("1", false); ("2", false); ("3", false);
   ("4", false); ("5", false); ("6", false); ("7", false)].

End Float64.

(** ** Definitions used to state the properties *)

Local Open Scope Q_scope.

(** The dictionary a loop [for k in l: d[k] = f(k)] builds from [s]. *)
Definition fill {A} (l : list string) (f : string → A) (s : gmap string A)
  : gmap string A :=
  foldl (λ s k, <[k := f k]> s) s l.

(** The sum of [f] over a list. *)
Definition sumQ {A} (f : A → Q) (l : list A) : Q := Qsum (f <$> l).

(** [sum(d.values())] *)
Definition total (d : gmap string Q) : Q := Qsum (items d).*2.

(** The value of a rank dictionary at a page. *)
Definition val (r : gmap string Q) (q : string) : Q := default 0 (r !! q).

(** Every link target is a page of the corpus. *)
Definition closed (corpus : gmap string (gset string)) : Prop :=
  map_Forall (λ _ links, links ⊆ dom corpus) corpus.
Global Instance closed_dec corpus : Decision (closed corpus) :=
  decide (map_Forall (λ _ links, links ⊆ dom corpus) corpus).

(** A distribution over the pages of the corpus: one entry per page,
    no negative value, total 1. *)
Definition distribution (corpus : gmap string (gset string))
    (d : gmap string Q) : Prop :=
  dom d = dom corpus ∧ (∀ p v, d !! p = Some v → 0 <= v) ∧ total d == 1.

(** The probability [transition_model] stores for page [p], when the
    current page has out-set [avail]. *)
Definition transition_value (corpus : gmap string (gset string))
    (avail : gset string) (d : Q) (p : string) : Q :=
  if decide (size avail = 0%nat) then 1 / Qlen (size corpus)
  else if decide (p ∈ avail)
       then (1 - d) / Qlen (size corpus) + d / Qlen (size avail)
       else (1 - d) / Qlen (size corpus).

(** The links the solver reads for a page whose out-set is [page_links]
    (line 135-136): all the pages when the out-set is empty. *)
Definition effective_links (corpus : gmap string (gset string))
    (page_links : gset string) : gset string :=
  if decide (size page_links = 0%nat) then dom corpus else page_links.

(** The value [prob_2] has after the inner loop (lines 133-138). *)
Definition prob_2 (corpus : gmap string (gset string))
    (prev_rank : gmap string Q) (page : string) : Q :=
  foldl (λ acc it,
           if decide (page ∈ effective_links corpus it.2)
           then acc + val prev_rank it.1 / Qlen (size (effective_links corpus it.2))
           else acc)
        0 (items corpus).

(** The value stored for [page] in a round (lines 131-141). *)
Definition next_rank (corpus : gmap string (gset string)) (d : Q)
    (prev_rank : gmap string Q) (page : string) : Q :=
  (1 - d) / Qlen (size corpus) + d * prob_2 corpus prev_rank page.

(** The ranks after a round. *)
Definition next_ranks (corpus : gmap string (gset string)) (d : Q)
    (prev_rank : gmap string Q) : gmap string Q :=
  fill (keys corpus) (next_rank corpus d prev_rank) ∅.

(** The exit test of a round, page by page. *)
Definition converged (corpus : gmap string (gset string))
    (prev_rank pagerank : gmap string Q) : Prop :=
  ∀ p, p ∈ dom corpus → Qabs (val prev_rank p - val pagerank p) < threshold.

(** What holds of the loop state at the start of every round. *)
Definition loop_inv (corpus : gmap string (gset string)) (st : loop_state)
  : Prop :=
  dom (st_prev_rank st) = dom corpus ∧
  dom (st_pagerank st) = dom corpus ∧
  dom (st_flg st) = dom corpus.

Global Instance loop_inv_dec corpus st : Decision (loop_inv corpus st) :=
  decide (dom (st_prev_rank st) = dom corpus ∧
          dom (st_pagerank st) = dom corpus ∧
          dom (st_flg st) = dom corpus).

(** The sum over the pages of the absolute rank changes of a round. *)
Definition aggregate_change (corpus : gmap string (gset string))
    (prev_rank pagerank : gmap string Q) : Q :=
  sumQ (λ p, Qabs (val prev_rank p - val pagerank p)) (keys corpus).

(** The uniform ranks the solver starts from (lines 121-125). *)
Definition uniform_rank (corpus : gmap string (gset string)) : gmap string Q :=
  fill (keys corpus) (λ _, 1 / Qlen (size corpus)) ∅.

(** The share of the rank of the page of item [it] that a round hands
    to page [p], and the ranks a round hands out from ranks [g]. *)
Definition weight (corpus : gmap string (gset string)) (p : string)
    (it : string * gset string) : Q :=
  if decide (p ∈ effective_links corpus it.2)
  then 1 / Qlen (size (effective_links corpus it.2)) else 0.
Definition spread (corpus : gmap string (gset string)) (g : string → Q)
    (p : string) : Q :=
  sumQ (λ it, weight corpus p it * g it.1) (items corpus).

(** The key that a variate [u] selects in a distribution: with the keys
    laid side by side on [0,1) in the order of the dictionary, each on an
    interval as long as its probability, the key on whose interval [u]
    falls.  A uniform [u] selects each key with its probability. *)
Definition drawn (probabilities : gmap string Q) (u : Q) (key : string)
  : Prop :=
  ∃ idx v,
    items probabilities !! idx = Some (key, v) ∧
    Qsum (take idx (items probabilities).*2) <= u ∧
    u < Qsum (take idx (items probabilities).*2) + v.

(** One transition of the walk: the next page is what
    [numpy.random.choice] returns, with variate [u], for the
    distribution that [transition_model] returns for the current page,
    and it is the key that [u] selects in that distribution. *)
Definition walk_step (corpus : gmap string (gset string)) (d u : Q)
    (current_page next_page : string) : Prop :=
  ∃ probabilities,
    transition_model corpus current_page d = Ok probabilities ∧
    np_random_choice u (keys probabilities) (items probabilities).*2
    = Ok next_page ∧
    drawn probabilities u next_page.

(** No page name ends in a NUL character. *)
Definition nul_free (corpus : gmap string (gset string)) : Prop :=
  ∀ page, page ∈ dom corpus → rstrip_nul page = page.

(** The update rule in the words of the specification: the out-set of a
    page, with a page without links read as linking to every page, and
    the rank [(1-d)/k + d * Σ rank_prev(q)/|out-set(q)|] over the pages
    [q] whose out-set contains [p]. *)
Definition out_set (corpus : gmap string (gset string)) (q : string)
  : gset string :=
  let links := default ∅ (corpus !! q) in
  if decide (links = ∅) then dom corpus else links.
Definition spec_rank (corpus : gmap string (gset string)) (d : Q)
    (rank_prev : gmap string Q) (p : string) : Q :=
  (1 - d) / Qlen (size corpus)
  + d * sumQ (λ q, val rank_prev q / Qlen (size (out_set corpus q)))
             (filter (λ q, p ∈ out_set corpus q) (elements (dom corpus))).


(** Example corpora. *)
Definition two_cycle : gmap string (gset string) :=
  <["a" := {["b"]}]> (<["b" := {["a"]}]> ∅).
Definition three_pages : gmap string (gset string) :=
  <["a" := {["b"; "c"]}]> (<["b" := {["c"]}]> (<["c" := ∅]> ∅)).

(** A state of the loop on [two_cycle]: ranks [1/2 + e] and [1/2 - e]. *)
Definition two_cycle_state (e : Q) : loop_state :=
  let rank : gmap string Q := <["a" := (1 # 2) + e]> (<["b" := (1 # 2) - e]> ∅) in
  LoopState rank rank (<["a" := false]> (<["b" := false]> ∅)).

(** ** [crawl] (pagerank.py, lines 25-50)

    Characters are the code points below 256 of [Ascii.ascii].  [re] is
    library code; it is modelled as a backtracking matcher in
    continuation-passing style, for the constructs that occur in the
    pattern of line 39: a character class, concatenation, the greedy
    [?] and [+], and one capturing group.  A matcher gets the rest of
    the input, the text of group 1 so far, and what to do after it. *)

Definition capture : Type := option string.
Definition continuation : Type :=
  list Ascii.ascii → capture → option (string * list Ascii.ascii).
Definition matcher : Type :=
  list Ascii.ascii → capture → continuation → option (string * list Ascii.ascii).

(** One character of a class. *)
Definition re_char (p : Ascii.ascii → bool) : matcher := λ s cap k,
  match s with
  | c :: s' => if p c then k s' cap else None
  | [] => None
  end.

Definition re_seq (m1 m2 : matcher) : matcher := λ s cap k,
  m1 s cap (λ s' cap', m2 s' cap' k).

(** A literal text. *)
Fixpoint re_literal (l : list Ascii.ascii) : matcher :=
  match l with
  | [] => λ s cap k, k s cap
  | c :: l' => re_seq (re_char (Ascii.eqb c)) (re_literal l')
  end.

(** [m?], greedy: with [m] first, without it on failure. *)
Definition re_optional (m : matcher) : matcher := λ s cap k,
  match m s cap k with
  | Some r => Some r
  | None => k s cap
  end.

(** [[class]+], greedy: the longest run first, giving back one
    character at a time on failure. *)
Fixpoint re_plus_char (p : Ascii.ascii → bool) (s : list Ascii.ascii) (cap : capture)
    (k : continuation) : option (string * list Ascii.ascii) :=
  match s with
  | c :: s' =>
    if p c then
      match re_plus_char p s' cap k with
      | Some r => Some r
      | None => k s' cap
      end
    else None
  | [] => None
  end.

(** [(m)]: group 1 is the text [m] consumed. *)
Definition re_group (m : matcher) : matcher := λ s cap k,
  m s cap (λ s' _,
    k s' (Some (String.string_of_list_ascii (take (length s - length s') s)))).

(** [\s] on code points below 256: tab to carriage return, the
    separators 28-31, space, NEL and the no-break space. *)
Definition is_whitespace (c : Ascii.ascii) : bool :=
  let n := Ascii.nat_of_ascii c in
  ((9 <=? n) && (n <=? 13) || (28 <=? n) && (n <=? 32)
   || (n =? 133) || (n =? 160))%nat.

(** The double quote (code 34) and [>] (code 62). *)
Definition quote : Ascii.ascii := Ascii.ascii_of_nat 34.
Definition greater_than : Ascii.ascii := Ascii.ascii_of_nat 62.

(** The pattern of line 39: [<a], [\s+], [(?:[^>]?)], [href=] and a
    quote, a group of one character that is not a quote, a quote. *)
Definition link_pattern : matcher :=
  re_seq (re_literal (String.list_ascii_of_string "<a"))
    (re_seq (re_plus_char is_whitespace)
      (re_seq (re_optional (re_char (λ c, negb (Ascii.eqb c greater_than))))
        (re_seq (re_literal (String.list_ascii_of_string "href=" ++ [quote]))
          (re_seq (re_group (re_char (λ c, negb (Ascii.eqb c quote))))
            (re_literal [quote]))))).

(** A match of the pattern at the start of [s]: group 1 and the input
    after the match. *)
Definition match_link (s : list Ascii.ascii) : option (string * list Ascii.ascii) :=
  link_pattern s None (λ rest cap, Some (default EmptyString cap, rest)).

(** [re.findall]: the groups of the matches found from left to right,
    each search resuming where the previous match ended ([skip] counts
    the characters of the last match still to pass). *)
Fixpoint findall_from (skip : nat) (s : list Ascii.ascii) : list string :=
  match s with
  | [] => []
  | c :: s' =>
    match skip with
    | S skip' => findall_from skip' s'
    | O =>
      match match_link s with
      | Some (group, rest) =>
        group :: findall_from (length s - length rest - 1) s'
      | None => findall_from 0 s'
      end
    end
  end.

Definition findall_links (contents : string) : list string :=
  findall_from 0 (String.list_ascii_of_string contents).

(** [s.endswith(suffix)] *)
Definition endswith (s suffix : string) : bool :=
  (String.length suffix <=? String.length s)%nat &&
  String.eqb
    (String.substring (String.length s - String.length suffix)
       (String.length suffix) s)
    suffix.

(** [crawl], on a directory given as the dictionary from its file names
    to the text of the files, with the call of line 39 as [findall]. *)
Definition crawl_with (findall : string → list string)
    (directory : gmap string string) : result (gmap string (gset string)) :=
  pages ← for_each (items directory) (λ '(filename, contents) pages,
    if negb (endswith filename ".html") then Ok pages
    else
      let links := findall contents in
      Ok (<[filename := list_to_set links ∖ {[filename]}]> pages)) ∅;
  for_each (keys pages) (λ filename pages,
    links ← getitem pages filename;
    Ok (<[filename := filter (λ link, link ∈ dom pages) links]> pages)) pages.

Definition crawl (directory : gmap string string)
  : result (gmap string (gset string)) :=
  crawl_with findall_links directory.

(** [crawl] on a directory whose files need not be readable: an entry
    is the text of the file, or the exception that [open] or [read]
    raises for it (lines 37-38: a sub-directory, a file without read
    permission, bytes that do not decode). *)
Definition crawl_files (findall : string → list string)
    (directory : gmap string (result string))
  : result (gmap string (gset string)) :=
  pages ← for_each (items directory) (λ '(filename, file) pages,
    if negb (endswith filename ".html") then Ok pages
    else
      contents ← file;
      let links := findall contents in
      Ok (<[filename := list_to_set links ∖ {[filename]}]> pages)) ∅;
  for_each (keys pages) (λ filename pages,
    links ← getitem pages filename;
    Ok (<[filename := filter (λ link, link ∈ dom pages) links]> pages)) pages.

(** ** [main] (pagerank.py, lines 7-22)

    [sys.argv] is a list of strings, [os.listdir] and the reading of the
    files a function from the name of an existing directory to its
    entries (each the text of the file or the exception that reading it
    raises), the standard output the list of the lines printed.  A
    rank line stands for [f"  {page}: {ranks[page]:.4f}"]: it keeps the
    page and the rank, not the rendering of the rank to four decimals. *)

Definition DAMPING : Q := 85 # 100.
Definition SAMPLES : Z := 10000.

Inductive line : Type :=
  | Text (text : string)
  | Rank (page : string) (rank : Q).

(** [sorted(ranks)]: the keys in ascending order. *)
Definition sorted_keys {A} (d : gmap string A) : list string :=
  merge_sort String.le (keys d).

(** Lines 17-18 and 21-22: one line per page, in the order of
    [sorted(ranks)], added to the output. *)
Definition print_ranks (ranks : gmap string Q) (stdout : list line)
  : result (list line) :=
  for_each (sorted_keys ranks) (λ page stdout,
    rank ← getitem ranks page;
    Ok (stdout ++ [Rank page rank])) stdout.

(** How a run of [main] ends. *)
Inductive outcome : Type :=
  | SystemExit (message : string)
  | Uncaught (e : exn) (stdout : list line)
  | Finished (stdout : list line).

Definition main (argv : list string)
    (listdir : string → gmap string (result string))
    (seed : nat) (uniform : nat → Q) (fuel : nat) : option outcome :=
  if decide (length argv ≠ 2%nat)
  then Some (SystemExit "Usage:python pagerank.py corpus ")
  else
    let stdout : list line := [] in
    match (name ← list_getitem argv 1;
           crawl_files findall_links (listdir name)) with
    | Raise e => Some (Uncaught e stdout)
    | Ok corpus =>
      match sample_pagerank seed uniform corpus DAMPING SAMPLES with
      | Raise e => Some (Uncaught e stdout)
      | Ok ranks =>
        let stdout :=
          stdout ++ [Text "PageRank Results from Sampling (n = 10000)"] in
        match print_ranks ranks stdout with
        | Raise e => Some (Uncaught e stdout)
        | Ok stdout =>
          match iterate_pagerank fuel corpus DAMPING with
          | None => None
          | Some (Raise e) => Some (Uncaught e stdout)
          | Some (Ok ranks) =>
            let stdout :=
              stdout ++ [Text "PageRank Results from Iteration"] in
            match print_ranks ranks stdout with
            | Raise e => Some (Uncaught e stdout)
            | Ok stdout => Some (Finished stdout)
            end
          end
        end
      end
    end.

(** The rank lines [print_ranks] adds for [ranks]. *)
Definition rank_lines (ranks : gmap string Q) : list line :=
  (λ page, Rank page (val ranks page)) <$> sorted_keys ranks.

(** The file names [crawl] keeps, and the dictionary its first loop
    builds (lines 34-40). *)
Definition html_files {A} (directory : gmap string A) : gset string :=
  filter (λ filename, endswith filename ".html" = true) (dom directory).
Definition extracted (findall : string → list string)
    (directory : gmap string string) : gmap string (gset string) :=
  map_imap (λ filename contents,
    if endswith filename ".html"
    then Some (list_to_set (findall contents) ∖ {[filename]})
    else None) directory.

(** The dictionary [crawl] returns (lines 44-50). *)
Definition crawl_pages (findall : string → list string)
    (directory : gmap string string) : gmap string (gset string) :=
  (λ links, filter (λ link, link ∈ dom (extracted findall directory)) links)
  <$> extracted findall directory.


(** A corpus whose page [a] links to a page that is not there. *)
Definition dangling : gmap string (gset string) :=
  <["a" := {["b"; "x"]}]> (<["b" := {["a"]}]> ∅).

(** A matcher that hands the group on unchanged: what holds of the
    results of its continuation holds of its results. *)
Definition passes (m : matcher) : Prop :=
  ∀ (Φ : capture → string * list Ascii.ascii → Prop) (k : continuation),
    (∀ s cap r, k s cap = Some r → Φ cap r) →
    ∀ s cap r, m s cap k = Some r → Φ cap r.

(** A corpus without any link. *)
Definition no_links (corpus : gmap string (gset string)) : Prop :=
  map_Forall (λ _ links, links = (∅ : gset string)) corpus.

(** A corpus where the shares of rank that each page receives from the
    pages (itself included) add up to 1. *)
Definition balanced (corpus : gmap string (gset string)) : Prop :=
  ∀ p, p ∈ dom corpus → sumQ (λ it, weight corpus p it) (items corpus) == 1.

(** The texts of the files of a directory that can be read, and a
    directory all of whose files named [.html] can be read. *)
Definition texts (directory : gmap string (result string))
  : gmap string string :=
  omap (λ file, match file with Ok contents => Some contents | Raise _ => None end)
    directory.
Definition readable (directory : gmap string (result string)) : Prop :=
  ∀ filename file,
    directory !! filename = Some file → endswith filename ".html" = true →
    ∃ contents, file = Ok contents.

(** A directory with two pages and a file that is not a page. *)
Definition example_directory : gmap string string :=
  <["1.html" := "one"]> (<["2.html" := "two"]> (<["notes.txt" := "n"]> ∅)).

(** * Properties *)

(** ** Lists, dictionaries and loops *)

Lemma bind_Ok {A B} (a : A) (f : A → result B) : (Ok a ≫= f) = f a.
Proof. reflexivity. Qed.

Lemma keys_NoDup {A} (d : gmap string A) : NoDup (keys d).
Proof. apply NoDup_fst_map_to_list. Qed.

Lemma elem_of_keys {A} (d : gmap string A) k : k ∈ keys d ↔ k ∈ dom d.
Proof.
  unfold keys, items. rewrite elem_of_dom, list_elem_of_fmap. split.
  - intros [[k' v] [-> Hin]]. apply elem_of_map_to_list in Hin. by exists v.
  - intros [v Hv]. exists (k, v). split; [done|]. by apply elem_of_map_to_list.
Qed.

Lemma length_keys {A} (d : gmap string A) : length (keys d) = size d.
Proof. unfold keys, items. by rewrite length_fmap, length_map_to_list. Qed.

Lemma lookup_fill {A} (l : list string) (f : string → A) s k :
  fill l f s !! k = if decide (k ∈ l) then Some (f k) else s !! k.
Proof.
  unfold fill. revert s. induction l as [|x l IH]; intros s; cbn [foldl].
  - by rewrite decide_False by apply not_elem_of_nil.
  - rewrite IH. destruct (decide (k ∈ l)) as [Hl|Hl].
    + rewrite decide_True; [done|by right].
    + destruct (decide (k = x)) as [->|Hne].
      * rewrite decide_True by left. apply lookup_insert_eq.
      * rewrite decide_False by (rewrite elem_of_cons; tauto).
        by apply lookup_insert_ne.
Qed.

Lemma dom_fill {A} (l : list string) (f : string → A) s :
  dom (fill l f s) = list_to_set l ∪ dom s.
Proof.
  apply set_eq. intros k. rewrite elem_of_union, elem_of_list_to_set.
  rewrite !elem_of_dom, lookup_fill. case_decide; [|tauto].
  split; [tauto|]. intros _. by eexists.
Qed.

Lemma dom_fill_keys {A B} (d : gmap string B) (f : string → A) :
  dom (fill (keys d) f ∅) = dom d.
Proof.
  apply set_eq. intros k.
  rewrite dom_fill, elem_of_union, elem_of_list_to_set, elem_of_keys.
  rewrite dom_empty_L. set_solver.
Qed.

(** A loop whose body stores [f k] at every key builds [fill]. *)
Lemma for_each_fill {A} (l : list string) (f : string → A)
    (body : string → gmap string A → result (gmap string A)) s :
  (∀ k s', k ∈ l → body k s' = Ok (<[k := f k]> s')) →
  for_each l body s = Ok (fill l f s).
Proof.
  unfold fill. revert s. induction l as [|x l IH]; intros s Hbody; [done|].
  simpl. rewrite Hbody by left. simpl. apply IH.
  intros k s' Hk. apply Hbody. by right.
Qed.

(** ** The transition model *)

Lemma size_pos_lookup {A} (d : gmap string A) k v :
  d !! k = Some v → size d ≠ 0%nat.
Proof. intros Hk Hsz. apply map_size_empty_iff in Hsz. by subst. Qed.

Lemma transition_model_fill corpus page d avail :
  corpus !! page = Some avail →
  transition_model corpus page d
  = Ok (fill (keys corpus) (transition_value corpus avail d) ∅).
Proof.
  intros Hpage. unfold transition_model, getitem. rewrite Hpage. cbn.
  pose proof (size_pos_lookup _ _ _ Hpage) as Hk.
  unfold truediv, transition_value.
  destruct (decide (size corpus = 0%nat)) as [|_]; [done|].
  destruct (decide (size avail = 0%nat)) as [Hm|Hm]; cbn.
  - apply for_each_fill. intros k s' _.
    apply size_empty_iff, leibniz_equiv in Hm. subst avail.
    by rewrite decide_False by apply not_elem_of_empty.
  - apply for_each_fill. intros k s' _. by destruct (decide (k ∈ avail)).
Qed.

(** C1: for a page of the corpus, [transition_model] returns a dictionary
    with exactly the keys of the corpus; when the page has no links every
    key has value [1/k]; otherwise keys in the out-set have value
    [(1-d)/k + d/m] and the other keys [(1-d)/k], where [k] is the number
    of keys and [m] the size of the out-set. *)
Theorem transition_model_spec corpus page d avail :
  corpus !! page = Some avail →
  ∃ probability,
    transition_model corpus page d = Ok probability ∧
    dom probability = dom corpus ∧
    (size avail = 0%nat → ∀ p, p ∈ dom corpus →
       probability !! p = Some (1 / Qlen (size corpus))) ∧
    (size avail ≠ 0%nat → ∀ p, p ∈ dom corpus →
       (p ∈ avail → probability !! p
          = Some ((1 - d) / Qlen (size corpus) + d / Qlen (size avail))) ∧
       (p ∉ avail → probability !! p = Some ((1 - d) / Qlen (size corpus)))).
Proof.
  intros Hpage. eexists. split; [by apply transition_model_fill|].
  split; [apply dom_fill_keys|].
  split.
  - intros Hm p Hp. rewrite lookup_fill, decide_True by by apply elem_of_keys.
    unfold transition_value. by rewrite decide_True.
  - intros Hm p Hp. split; intros Hin;
      rewrite lookup_fill, decide_True by (by apply elem_of_keys);
      unfold transition_value; rewrite (decide_False (P := size avail = 0%nat)) by done.
    + by rewrite decide_True.
    + by rewrite decide_False.
Qed.

Lemma transition_model_spec_witness :
  ∃ probability,
    transition_model three_pages "a" (85 # 100) = Ok probability ∧
    probability !! "b" = Some ((1 - (85 # 100)) / Qlen 3 + (85 # 100) / Qlen 2) ∧
    probability !! "a" = Some ((1 - (85 # 100)) / Qlen 3).
Proof.
  destruct (transition_model_spec three_pages "a" (85 # 100) {["b"; "c"]})
    as (probability & Hrun & _ & _ & Hlinks); [reflexivity|].
  exists probability. split; [exact Hrun|].
  assert (Hm : size ({["b"; "c"]} : gset string) ≠ 0%nat) by (vm_compute; lia).
  split.
  - apply (Hlinks Hm "b"); [vm_compute; tauto | set_solver].
  - apply (Hlinks Hm "a"); [vm_compute; tauto | set_solver].
Defined.

(** C10: for a page that is not a key of the corpus, [transition_model]
    raises [KeyError], from the lookup [corpus[page]] that is its first
    statement, whatever the corpus and the damping factor. *)
Theorem transition_model_missing_page corpus page d :
  corpus !! page = None →
  transition_model corpus page d = Raise KeyError.
Proof. intros Hpage. unfold transition_model, getitem. by rewrite Hpage. Qed.

Lemma transition_model_missing_page_witness :
  transition_model three_pages "z" (85 # 100) = Raise KeyError.
Proof. apply (transition_model_missing_page three_pages "z" (85 # 100)). reflexivity. Defined.

(** ** Rational sums *)

Lemma Qlen_S n : Qlen (S n) == Qlen n + 1.
Proof. unfold Qlen. rewrite Nat2Z.inj_succ, <- Z.add_1_r, inject_Z_plus. reflexivity. Qed.

Lemma Qlen_nonneg n : 0 <= Qlen n.
Proof. unfold Qlen. rewrite <- (Zle_Qle 0). lia. Qed.

Lemma Qlen_pos n : n ≠ 0%nat → 0 < Qlen n.
Proof. intros Hn. unfold Qlen. rewrite <- (Zlt_Qlt 0). lia. Qed.

Lemma Qlen_le n m : (n ≤ m)%nat → Qlen n <= Qlen m.
Proof. intros Hn. unfold Qlen. rewrite <- Zle_Qle. lia. Qed.

Lemma Qdiv_nonneg a b : 0 <= a → 0 <= b → 0 <= a / b.
Proof.
  intros Ha Hb. unfold Qdiv. apply Qmult_le_0_compat; [done|].
  by apply Qinv_le_0_compat.
Qed.

Lemma Qmult_le_nonneg_l z x y : 0 <= z → x <= y → z * x <= z * y.
Proof. intros Hz Hxy. rewrite !(Qmult_comm z). by apply Qmult_le_compat_r. Qed.

Lemma Qmult_one_div a b : a * (1 / b) == a / b.
Proof. unfold Qdiv. ring. Qed.

Section sums.
Context {A : Type}.
Implicit Types (f g : A → Q) (l : list A).

Lemma sumQ_cons f x l : sumQ f (x :: l) = f x + sumQ f l.
Proof. reflexivity. Qed.

Lemma sumQ_ext f g l : (∀ x, x ∈ l → f x == g x) → sumQ f l == sumQ g l.
Proof.
  induction l as [|x l IH]; intros Hfg; [reflexivity|].
  rewrite !sumQ_cons. apply Qplus_comp; [apply Hfg; left|].
  apply IH. intros y Hy. apply Hfg. by right.
Qed.

Lemma sumQ_le f g l : (∀ x, x ∈ l → f x <= g x) → sumQ f l <= sumQ g l.
Proof.
  induction l as [|x l IH]; intros Hfg; [apply Qle_refl|].
  rewrite !sumQ_cons. apply Qplus_le_compat; [apply Hfg; left|].
  apply IH. intros y Hy. apply Hfg. by right.
Qed.

Lemma sumQ_zero l : sumQ (λ _ : A, 0) l == 0.
Proof. induction l as [|x l IH]; [reflexivity|]. rewrite sumQ_cons, IH. lra. Qed.

Lemma sumQ_nonneg f l : (∀ x, x ∈ l → 0 <= f x) → 0 <= sumQ f l.
Proof. intros Hf. rewrite <- (sumQ_zero l). by apply sumQ_le. Qed.

Lemma sumQ_plus f g l : sumQ (λ x, f x + g x) l == sumQ f l + sumQ g l.
Proof. induction l as [|x l IH]; [reflexivity|]. rewrite !sumQ_cons, IH. lra. Qed.

Lemma sumQ_scale c f l : sumQ (λ x, c * f x) l == c * sumQ f l.
Proof.
  induction l as [|x l IH]; [unfold sumQ; simpl; ring|].
  rewrite !sumQ_cons, IH. ring.
Qed.

Lemma sumQ_const c l : sumQ (λ _, c) l == Qlen (length l) * c.
Proof.
  induction l as [|x l IH]; [unfold sumQ, Qlen; simpl; ring|].
  rewrite sumQ_cons, IH. cbn [length]. rewrite Qlen_S. ring.
Qed.

Lemma sumQ_indicator (P : A → Prop) `{!∀ x, Decision (P x)} c l :
  sumQ (λ x, if decide (P x) then c else 0) l == Qlen (length (filter P l)) * c.
Proof.
  induction l as [|x l IH]; [unfold sumQ, Qlen; simpl; ring|].
  rewrite sumQ_cons, IH, filter_cons. destruct (decide (P x)).
  - cbn [length]. rewrite Qlen_S. ring.
  - ring.
Qed.

Lemma sumQ_abs f l : Qabs (sumQ f l) <= sumQ (λ x, Qabs (f x)) l.
Proof.
  induction l as [|x l IH]; [unfold sumQ; simpl; apply Qle_refl|].
  rewrite !sumQ_cons. eapply Qle_trans; [apply Qabs_triangle|].
  apply Qplus_le_compat; [apply Qle_refl|done].
Qed.

Lemma sumQ_perm f l l' : l ≡ₚ l' → sumQ f l == sumQ f l'.
Proof.
  induction 1 as [|x l l' _ IH|x y l|l l' l'' _ IH1 _ IH2].
  - reflexivity.
  - rewrite !sumQ_cons, IH. reflexivity.
  - rewrite !sumQ_cons. lra.
  - by rewrite IH1.
Qed.

Lemma sumQ_elem_le f l x :
  x ∈ l → (∀ y, y ∈ l → 0 <= f y) → f x <= sumQ f l.
Proof.
  induction l as [|y l IH]; intros Hx Hf; [by apply elem_of_nil in Hx|].
  rewrite sumQ_cons. apply elem_of_cons in Hx as [->|Hx].
  - assert (0 <= sumQ f l) by (apply sumQ_nonneg; intros; apply Hf; by right).
    lra.
  - assert (0 <= f y) by (apply Hf; left).
    assert (f x <= sumQ f l) by (apply IH; [done|intros; apply Hf; by right]).
    lra.
Qed.
End sums.

Lemma sumQ_swap {A B} (F : A → B → Q) (l : list A) (k : list B) :
  sumQ (λ x, sumQ (λ y, F x y) k) l == sumQ (λ y, sumQ (λ x, F x y) l) k.
Proof.
  induction l as [|x l IH].
  - unfold sumQ at 1. simpl. symmetry. apply (sumQ_zero k).
  - rewrite sumQ_cons, IH, <- sumQ_plus. apply sumQ_ext. intros y _.
    by rewrite sumQ_cons.
Qed.

Lemma sumQ_fmap {A B} (h : A → B) (f : B → Q) (l : list A) :
  sumQ f (h <$> l) = sumQ (f ∘ h) l.
Proof. unfold sumQ. by rewrite <- list_fmap_compose. Qed.

(** ** Dictionaries of rationals *)

Lemma keys_perm {A B} (d : gmap string A) (d' : gmap string B) :
  dom d = dom d' → keys d ≡ₚ keys d'.
Proof.
  intros Hdom. apply NoDup_Permutation; [apply keys_NoDup..|].
  intros k. by rewrite !elem_of_keys, Hdom.
Qed.

Lemma total_val (d : gmap string Q) : total d == sumQ (val d) (keys d).
Proof.
  unfold total, keys. rewrite sumQ_fmap. unfold sumQ at 1. fold (sumQ snd (items d)).
  apply sumQ_ext. intros [k v] Hin. apply elem_of_map_to_list in Hin.
  unfold val. simpl. rewrite Hin. reflexivity.
Qed.

Lemma total_dom {A} (corpus : gmap string A) (d : gmap string Q) :
  dom d = dom corpus → total d == sumQ (val d) (keys corpus).
Proof. intros Hdom. rewrite total_val. by apply sumQ_perm, keys_perm. Qed.

Lemma total_fill {A} (corpus : gmap string A) (f : string → Q) :
  total (fill (keys corpus) f ∅) == sumQ f (keys corpus).
Proof.
  rewrite (total_dom corpus) by apply dom_fill_keys.
  apply sumQ_ext. intros k Hk. unfold val.
  rewrite lookup_fill, decide_True by done. reflexivity.
Qed.

(** How many pages of the corpus lie in a set of links. *)
Lemma filter_keys_length {A} (corpus : gmap string A) (X : gset string) :
  length (filter (.∈ X) (keys corpus)) = size (X ∩ dom corpus).
Proof.
  unfold size at 1, set_size. cbn. apply Permutation_length.
  apply NoDup_Permutation.
  - apply NoDup_filter, keys_NoDup.
  - apply NoDup_elements.
  - intros k. rewrite list_elem_of_filter, elem_of_keys, elem_of_elements.
    set_solver.
Qed.

Lemma filter_keys_length_le {A} (corpus : gmap string A) (X : gset string) :
  (length (filter (.∈ X) (keys corpus)) ≤ size X)%nat.
Proof. rewrite filter_keys_length. apply subseteq_size. set_solver. Qed.

Lemma filter_keys_length_closed {A} (corpus : gmap string A) (X : gset string) :
  X ⊆ dom corpus → length (filter (.∈ X) (keys corpus)) = size X.
Proof.
  intros HX. rewrite filter_keys_length. f_equal. set_solver.
Qed.

(** ** The transition model is a distribution *)

Lemma Qlen_neq0 n : n ≠ 0%nat → ¬ Qlen n == 0.
Proof. intros Hn H0. pose proof (Qlen_pos n Hn). lra. Qed.

Lemma transition_value_nonneg corpus avail d p :
  0 <= d → d <= 1 → 0 <= transition_value corpus avail d p.
Proof.
  intros Hd0 Hd1. unfold transition_value.
  pose proof (Qlen_nonneg (size corpus)). pose proof (Qlen_nonneg (size avail)).
  repeat case_decide.
  - apply Qdiv_nonneg; [lra|done].
  - assert (0 <= (1 - d) / Qlen (size corpus)) by (apply Qdiv_nonneg; [lra|done]).
    assert (0 <= d / Qlen (size avail)) by (by apply Qdiv_nonneg).
    lra.
  - apply Qdiv_nonneg; [lra|done].
Qed.

(** The total mass: the share [d] of a page with links reaches only the
    links that are pages of the corpus. *)
Lemma transition_value_sum corpus avail d :
  size corpus ≠ 0%nat →
  sumQ (transition_value corpus avail d) (keys corpus)
  == if decide (size avail = 0%nat) then 1
     else (1 - d) + d * (Qlen (size (avail ∩ dom corpus)) / Qlen (size avail)).
Proof.
  intros Hk. apply Qlen_neq0 in Hk. unfold transition_value.
  destruct (decide (size avail = 0%nat)) as [Hm|Hm].
  - rewrite sumQ_const, length_keys. by field.
  - apply Qlen_neq0 in Hm.
    rewrite (sumQ_ext _ (λ p, (1 - d) / Qlen (size corpus)
                              + (if decide (p ∈ avail) then d / Qlen (size avail) else 0))).
    + rewrite sumQ_plus, sumQ_const, sumQ_indicator, length_keys, filter_keys_length.
      by field.
    + intros p _. case_decide; ring.
Qed.

(** C6: for a corpus whose links all point to pages of the corpus, a page
    of it and a damping factor in (0,1), the dictionary returned by
    [transition_model] has one entry per page, no negative value, and its
    values sum to 1 (exactly, hence within 1e-9). *)
Theorem transition_model_distribution corpus page d :
  closed corpus → page ∈ dom corpus → 0 < d → d < 1 →
  ∃ probability,
    transition_model corpus page d = Ok probability ∧
    dom probability = dom corpus ∧
    (∀ p v, probability !! p = Some v → 0 <= v) ∧
    total probability == 1 ∧
    Qabs (total probability - 1) <= 1 # 1000000000.
Proof.
  intros Hclosed [avail Hpage]%elem_of_dom Hd0 Hd1.
  eexists. split; [by apply transition_model_fill|].
  split; [apply dom_fill_keys|].
  assert (Hsum : total (fill (keys corpus) (transition_value corpus avail d) ∅) == 1).
  { rewrite total_fill, transition_value_sum by by eapply size_pos_lookup.
    case_decide as Hm; [reflexivity|].
    replace (avail ∩ dom corpus) with avail
      by (specialize (Hclosed _ _ Hpage); set_solver).
    apply Qlen_neq0 in Hm. by field. }
  split; [|split; [done|]].
  - intros p v. rewrite lookup_fill. case_decide; [|by rewrite lookup_empty].
    intros [= <-]. apply transition_value_nonneg; lra.
  - rewrite Hsum. by vm_compute.
Qed.

Lemma transition_model_distribution_witness :
  ∃ probability,
    transition_model three_pages "a" (85 # 100) = Ok probability ∧
    total probability == 1.
Proof.
  destruct (transition_model_distribution three_pages "a" (85 # 100))
    as (probability & Hrun & _ & _ & Hsum & _).
  - apply (bool_decide_unpack (closed three_pages)). by vm_compute.
  - apply (bool_decide_unpack ("a" ∈ dom three_pages)). by vm_compute.
  - reflexivity.
  - reflexivity.
  - by exists probability.
Defined.

(** ** One round of the solver *)

Lemma fill_keys_dom {A} (corpus : gmap string A) (f : string → Q) pr :
  dom pr = dom corpus → fill (keys corpus) f pr = fill (keys corpus) f ∅.
Proof.
  intros Hdom. apply map_eq. intros k. rewrite !lookup_fill.
  case_decide as Hk; [done|]. rewrite lookup_empty.
  apply not_elem_of_dom. by rewrite Hdom, <- elem_of_keys.
Qed.

Lemma getitem_val (r : gmap string Q) k : k ∈ dom r → getitem r k = Ok (val r k).
Proof. intros [v Hv]%elem_of_dom. unfold getitem, val. by rewrite Hv. Qed.

Lemma effective_links_size corpus q links :
  corpus !! q = Some links → size (effective_links corpus links) ≠ 0%nat.
Proof.
  intros Hq. unfold effective_links. case_decide; [|done].
  rewrite size_dom. by eapply size_pos_lookup.
Qed.

Lemma final_prob_next_rank corpus d prev_rank page :
  dom prev_rank = dom corpus → size corpus ≠ 0%nat →
  final_prob corpus d prev_rank page = Ok (next_rank corpus d prev_rank page).
Proof.
  intros Hdom Hk. unfold final_prob, next_rank, truediv.
  rewrite decide_False by done. cbn.
  assert (Hloop : ∀ l acc, (∀ it, it ∈ l → corpus !! it.1 = Some it.2) →
    for_each l (λ '(prev_page, page_links) prob_2,
      let page_links :=
        if decide (size page_links = 0%nat) then dom corpus else page_links in
      if decide (page ∈ page_links) then
        r ← getitem prev_rank prev_page;
        c ← (if decide (size page_links = 0%nat) then Raise ZeroDivisionError
             else Ok (r / Qlen (size page_links)));
        Ok (prob_2 + c)
      else Ok prob_2) acc
    = Ok (foldl (λ acc it,
           if decide (page ∈ effective_links corpus it.2)
           then acc + val prev_rank it.1 / Qlen (size (effective_links corpus it.2))
           else acc) acc l)).
  { induction l as [|[q links] l IH]; intros acc Hl; [done|].
    cbn [for_each foldl]. fold (effective_links corpus links). cbn [fst snd].
    assert (Hq : corpus !! q = Some links) by (apply (Hl (q, links)); left).
    destruct (decide (page ∈ effective_links corpus links)); cbn.
    - rewrite getitem_val by (rewrite Hdom; by apply elem_of_dom). cbn.
      rewrite decide_False by by eapply effective_links_size. cbn.
      apply IH. intros it Hit. apply Hl. by right.
    - apply IH. intros it Hit. apply Hl. by right. }
  unfold prob_2. rewrite Hloop; [done|].
  intros [q links] Hit. by apply elem_of_map_to_list.
Qed.

Lemma update_round_next_ranks corpus d prev_rank pagerank :
  dom prev_rank = dom corpus → dom pagerank = dom corpus →
  update_round corpus d prev_rank pagerank = Ok (next_ranks corpus d prev_rank).
Proof.
  intros Hprev Hpr. unfold update_round, next_ranks.
  rewrite <- (fill_keys_dom corpus _ pagerank) by done.
  apply for_each_fill. intros k s' Hk.
  rewrite final_prob_next_rank; [done..|].
  apply elem_of_keys, elem_of_dom in Hk as [links Hk]. by eapply size_pos_lookup.
Qed.

Lemma dom_next_ranks corpus d prev_rank :
  dom (next_ranks corpus d prev_rank) = dom corpus.
Proof. apply dom_fill_keys. Qed.

Lemma val_next_ranks corpus d prev_rank p :
  p ∈ dom corpus →
  val (next_ranks corpus d prev_rank) p = next_rank corpus d prev_rank p.
Proof.
  intros Hp. unfold val, next_ranks.
  by rewrite lookup_fill, decide_True by by apply elem_of_keys.
Qed.

(** ** The exit test *)

Lemma update_flags_fill prev_rank pagerank flg :
  dom pagerank = dom prev_rank →
  update_flags prev_rank pagerank flg
  = Ok (fill (keys prev_rank)
          (λ p, bool_decide (Qabs (val prev_rank p - val pagerank p) < threshold))
          flg).
Proof.
  intros Hdom. apply for_each_fill. intros k s' Hk. apply elem_of_keys in Hk.
  rewrite !getitem_val by (by rewrite ?Hdom). cbn.
  case_decide; [by rewrite bool_decide_eq_true_2|by rewrite bool_decide_eq_false_2].
Qed.

Lemma all_values_true (flg : gmap string bool) :
  all_values flg = true ↔ ∀ k b, flg !! k = Some b → b = true.
Proof.
  unfold all_values, items. rewrite forallb_forall. split.
  - intros Hall k b Hk. apply Hall, list_elem_of_In, list_elem_of_fmap.
    exists (k, b). split; [done|]. by apply elem_of_map_to_list.
  - intros Hall b [[k b'] [-> Hin]]%list_elem_of_In%list_elem_of_fmap.
    apply elem_of_map_to_list in Hin. by eapply Hall.
Qed.

Lemma all_values_flags corpus prev_rank pagerank flg :
  dom prev_rank = dom corpus → dom flg = dom corpus →
  all_values (fill (keys prev_rank)
    (λ p, bool_decide (Qabs (val prev_rank p - val pagerank p) < threshold)) flg)
  = true ↔ converged corpus prev_rank pagerank.
Proof.
  intros Hprev Hflg. rewrite all_values_true. unfold converged. split.
  - intros Hall p Hp.
    specialize (Hall p (bool_decide (Qabs (val prev_rank p - val pagerank p) < threshold))).
    rewrite lookup_fill, decide_True in Hall by (apply elem_of_keys; by rewrite Hprev).
    eapply bool_decide_eq_true_1. by apply Hall.
  - intros Hconv k b. rewrite lookup_fill. case_decide as Hk.
    + intros [= <-]. apply bool_decide_eq_true_2, Hconv.
      apply elem_of_keys in Hk. by rewrite <- Hprev.
    + intros Hb. exfalso. apply Hk, elem_of_keys. rewrite Hprev, <- Hflg.
      apply elem_of_dom. by eexists.
Qed.

(** One round, from a state that satisfies the loop invariant: the new
    ranks are [next_ranks]; the loop exits with them when the test
    succeeds, and otherwise goes on with them as previous ranks. *)
Lemma loop_body_cases corpus d st :
  loop_inv corpus st →
  let pagerank := next_ranks corpus d (st_prev_rank st) in
  (converged corpus (st_prev_rank st) pagerank ∧
   loop_body corpus d st = Ok (Break pagerank)) ∨
  (¬ converged corpus (st_prev_rank st) pagerank ∧
   ∃ flg, loop_body corpus d st = Ok (Continue (LoopState pagerank pagerank flg)) ∧
          loop_inv corpus (LoopState pagerank pagerank flg)).
Proof.
  intros (Hprev & Hpr & Hflg) pagerank. subst pagerank. unfold loop_body.
  rewrite update_round_next_ranks, bind_Ok by done.
  rewrite update_flags_fill, bind_Ok by (by rewrite dom_next_ranks).
  destruct (all_values _) eqn:Hall.
  - left. split; [|done]. by apply (all_values_flags corpus _ _ (st_flg st)).
  - right. split.
    + intros Hconv. apply (all_values_flags corpus _ _ (st_flg st)) in Hconv; [|done..].
      congruence.
    + eexists. split; [done|]. unfold loop_inv. cbn.
      rewrite !dom_next_ranks. split; [done|]. split; [done|].
      rewrite dom_fill, Hflg. apply set_eq. intros k.
      rewrite elem_of_union, elem_of_list_to_set, elem_of_keys, Hprev. tauto.
Qed.

(** ** The update rule *)

Lemma foldl_sumQ {A} (P : A → Prop) `{!∀ x, Decision (P x)} (g : A → Q) l a :
  foldl (λ acc x, if decide (P x) then acc + g x else acc) a l
  == a + sumQ (λ x, if decide (P x) then g x else 0) l.
Proof.
  revert a. induction l as [|x l IH]; intros a.
  - unfold sumQ. simpl. ring.
  - cbn [foldl]. rewrite IH, sumQ_cons. case_decide; ring.
Qed.

Lemma sumQ_filter {A} (P : A → Prop) `{!∀ x, Decision (P x)} (g : A → Q) l :
  sumQ (λ x, if decide (P x) then g x else 0) l == sumQ g (filter P l).
Proof.
  induction l as [|x l IH]; [reflexivity|].
  rewrite sumQ_cons, filter_cons, IH. case_decide.
  - by rewrite sumQ_cons.
  - ring.
Qed.

Lemma keys_elements {A} (d : gmap string A) : keys d ≡ₚ elements (dom d).
Proof.
  apply NoDup_Permutation; [apply keys_NoDup|apply NoDup_elements|].
  intros k. by rewrite elem_of_keys, elem_of_elements.
Qed.

Lemma out_set_effective corpus q links :
  corpus !! q = Some links → out_set corpus q = effective_links corpus links.
Proof.
  intros Hq. unfold out_set, effective_links. rewrite Hq. cbn.
  destruct (decide (links = ∅)) as [->|Hne].
  - by rewrite decide_True by apply size_empty.
  - rewrite decide_False; [done|]. intros Hsz. apply Hne.
    by apply leibniz_equiv, size_empty_iff.
Qed.

(** The value the code stores is the rank of the specification. *)
Lemma next_rank_spec corpus d prev_rank p :
  next_rank corpus d prev_rank p == spec_rank corpus d prev_rank p.
Proof.
  unfold next_rank, spec_rank, prob_2.
  rewrite (foldl_sumQ (λ it, p ∈ effective_links corpus it.2)
            (λ it, val prev_rank it.1 / Qlen (size (effective_links corpus it.2)))).
  rewrite <- (sumQ_filter (λ q, p ∈ out_set corpus q)).
  rewrite <- (sumQ_perm _ _ _ (keys_elements corpus)).
  unfold keys. rewrite sumQ_fmap.
  rewrite (sumQ_ext _ ((λ q, if decide (p ∈ out_set corpus q)
                              then val prev_rank q / Qlen (size (out_set corpus q))
                              else 0) ∘ fst) (items corpus)); [ring|].
  intros [q links] Hin. apply elem_of_map_to_list in Hin. cbn.
  rewrite (out_set_effective _ _ _ Hin). reflexivity.
Qed.

(** C2: in every round (from any state satisfying the loop invariant) the
    new rank of each page [p] is [(1-d)/k + d * Σ rank_prev(q)/|out(q)|]
    over the pages [q] whose out-set contains [p], a page without links
    counting as linking to every page; the new ranks are computed from
    the previous ranks alone, whatever the dictionary being overwritten
    holds; and they are what the round exits with, or hands on as the
    previous ranks of the next round (whose state satisfies the loop
    invariant again). *)
Theorem update_rule_synchronous corpus d st :
  loop_inv corpus st →
  ∃ pagerank,
    update_round corpus d (st_prev_rank st) (st_pagerank st) = Ok pagerank ∧
    dom pagerank = dom corpus ∧
    (∀ p, p ∈ dom corpus →
       ∃ v, pagerank !! p = Some v ∧ v == spec_rank corpus d (st_prev_rank st) p) ∧
    (∀ overwritten, dom overwritten = dom corpus →
       update_round corpus d (st_prev_rank st) overwritten = Ok pagerank) ∧
    (loop_body corpus d st = Ok (Break pagerank) ∨
     ∃ flg, loop_body corpus d st = Ok (Continue (LoopState pagerank pagerank flg)) ∧
            loop_inv corpus (LoopState pagerank pagerank flg)).
Proof.
  intros Hinv. exists (next_ranks corpus d (st_prev_rank st)).
  pose proof Hinv as (Hprev & Hpr & Hflg).
  split; [by apply update_round_next_ranks|].
  split; [apply dom_next_ranks|].
  split; [|split].
  - intros p Hp. exists (next_rank corpus d (st_prev_rank st) p). split.
    + unfold next_ranks. by rewrite lookup_fill, decide_True by by apply elem_of_keys.
    + apply next_rank_spec.
  - intros overwritten Hdom. by apply update_round_next_ranks.
  - destruct (loop_body_cases corpus d st Hinv) as [[_ Hb]|[_ (flg & Hb & Hinv')]];
      [by left|right; by exists flg].
Qed.

Lemma update_rule_synchronous_witness :
  ∃ pagerank,
    update_round two_cycle (85 # 100) (st_prev_rank (two_cycle_state (1 # 10)))
      (st_pagerank (two_cycle_state (1 # 10))) = Ok pagerank ∧
    ∃ v, pagerank !! "a" = Some v ∧
         v == spec_rank two_cycle (85 # 100) (st_prev_rank (two_cycle_state (1 # 10))) "a".
Proof.
  destruct (update_rule_synchronous two_cycle (85 # 100) (two_cycle_state (1 # 10)))
    as (pagerank & Hrun & _ & Hrank & _).
  - apply (bool_decide_unpack (loop_inv two_cycle (two_cycle_state (1 # 10)))).
    by vm_compute.
  - exists pagerank. split; [exact Hrun|]. apply Hrank.
    apply (bool_decide_unpack ("a" ∈ dom two_cycle)). by vm_compute.
Defined.

(** ** The exit condition *)

(** A round that exits although the sum of the absolute changes is not
    below the threshold. *)
Lemma exit_not_aggregate :
  let st := two_cycle_state (4 # 10000) in
  ∃ pagerank,
    loop_body two_cycle (85 # 100) st = Ok (Break pagerank) ∧
    threshold <= aggregate_change two_cycle (st_prev_rank st) pagerank.
Proof.
  exists (next_ranks two_cycle (85 # 100) (st_prev_rank (two_cycle_state (4 # 10000)))).
  split; by vm_compute.
Qed.

(** A round where the change of a page is exactly the threshold: the
    loop goes on. *)
Lemma boundary_not_converged :
  let st := two_cycle_state (1 # 1850) in
  ∃ pagerank flg,
    loop_body two_cycle (85 # 100) st
    = Ok (Continue (LoopState pagerank pagerank flg)) ∧
    Qabs (val (st_prev_rank st) "a" - val pagerank "a") == threshold.
Proof.
  exists (next_ranks two_cycle (85 # 100) (st_prev_rank (two_cycle_state (1 # 1850)))).
  eexists. split; [by vm_compute|by vm_compute].
Qed.

(** C3: a round of the loop exits if and only if, for every page, the
    absolute difference between its new and its previous rank is strictly
    below 0.001; a page whose difference is at least the threshold (in
    particular equal to it) keeps the loop going; the test is not a test
    on the sum of the differences. *)
Theorem loop_exit_per_node corpus d st :
  loop_inv corpus st →
  ∃ pagerank,
    update_round corpus d (st_prev_rank st) (st_pagerank st) = Ok pagerank ∧
    (loop_body corpus d st = Ok (Break pagerank) ↔
     ∀ p, p ∈ dom corpus →
          Qabs (val (st_prev_rank st) p - val pagerank p) < 1 # 1000) ∧
    ((∃ p, p ∈ dom corpus ∧
           1 # 1000 <= Qabs (val (st_prev_rank st) p - val pagerank p)) →
     ∃ flg, loop_body corpus d st
            = Ok (Continue (LoopState pagerank pagerank flg))) ∧
    (∀ fuel,
       (loop_body corpus d st = Ok (Break pagerank) →
        iterate_loop (S fuel) corpus d st = Some (Ok pagerank)) ∧
       (∀ flg, loop_body corpus d st
               = Ok (Continue (LoopState pagerank pagerank flg)) →
        iterate_loop (S fuel) corpus d st
        = iterate_loop fuel corpus d (LoopState pagerank pagerank flg))) ∧
    ¬ (∀ corpus' d' st' pagerank',
         loop_inv corpus' st' →
         loop_body corpus' d' st' = Ok (Break pagerank') →
         aggregate_change corpus' (st_prev_rank st') pagerank' < 1 # 1000).
Proof.
  intros Hinv. exists (next_ranks corpus d (st_prev_rank st)).
  pose proof Hinv as (Hprev & Hpr & Hflg).
  split; [by apply update_round_next_ranks|].
  pose proof (loop_body_cases corpus d st Hinv) as Hcases. cbv zeta in Hcases.
  fold threshold. split; [|split; [|split]].
  - split.
    + intros Hb. destruct Hcases as [[Hc _]|[_ (flg & Hb' & _)]]; [exact Hc|].
      rewrite Hb in Hb'. discriminate.
    + intros Hc. destruct Hcases as [[_ Hb]|[Hn _]]; [exact Hb|]. by destruct Hn.
  - intros (p & Hp & Hge). destruct Hcases as [[Hc _]|[_ (flg & Hb & _)]].
    + specialize (Hc p Hp). lra.
    + by exists flg.
  - intros fuel. split.
    + intros Hb. cbn [iterate_loop]. by rewrite Hb.
    + intros flg Hb. cbn [iterate_loop]. by rewrite Hb.
  - intros Hagg. destruct exit_not_aggregate as (pagerank & Hb & Hge).
    specialize (Hagg two_cycle (85 # 100) (two_cycle_state (4 # 10000)) pagerank).
    assert (Hlt : aggregate_change two_cycle
                    (st_prev_rank (two_cycle_state (4 # 10000))) pagerank < threshold).
    { apply Hagg; [|exact Hb].
      apply (bool_decide_unpack (loop_inv two_cycle (two_cycle_state (4 # 10000)))).
      by vm_compute. }
    lra.
Qed.

Lemma loop_exit_per_node_witness :
  ∃ pagerank,
    update_round two_cycle (85 # 100) (st_prev_rank (two_cycle_state (1 # 1850)))
      (st_pagerank (two_cycle_state (1 # 1850))) = Ok pagerank ∧
    ∃ flg, loop_body two_cycle (85 # 100) (two_cycle_state (1 # 1850))
           = Ok (Continue (LoopState pagerank pagerank flg)).
Proof.
  destruct (loop_exit_per_node two_cycle (85 # 100) (two_cycle_state (1 # 1850)))
    as (pagerank & Hrun & _ & Hgo & _).
  - apply (bool_decide_unpack (loop_inv two_cycle (two_cycle_state (1 # 1850)))).
    by vm_compute.
  - exists pagerank. split; [exact Hrun|]. apply Hgo. exists "a". split.
    + apply (bool_decide_unpack ("a" ∈ dom two_cycle)). by vm_compute.
    + assert (Hpr : pagerank = next_ranks two_cycle (85 # 100)
                      (st_prev_rank (two_cycle_state (1 # 1850)))).
      { rewrite update_round_next_ranks in Hrun; [congruence|by vm_compute..]. }
      rewrite Hpr. by vm_compute.
Defined.

(** ** The initial state *)

Lemma initial_state_uniform corpus :
  ∃ flg, initial_state corpus
         = Ok (LoopState (uniform_rank corpus) (uniform_rank corpus) flg) ∧
         loop_inv corpus (LoopState (uniform_rank corpus) (uniform_rank corpus) flg).
Proof.
  eexists. unfold initial_state.
  rewrite (for_each_fill _ (λ _, 1 / Qlen (size corpus))).
  - rewrite bind_Ok. split; [reflexivity|]. unfold loop_inv. cbn.
    fold (uniform_rank corpus). unfold uniform_rank at 1 2.
    rewrite dom_fill_keys. split; [done|]. split; [done|].
    rewrite dom_list_to_map_L, <- list_fmap_compose.
    apply set_eq. intros k.
    rewrite elem_of_list_to_set, list_fmap_id, elem_of_keys.
    unfold uniform_rank. by rewrite dom_fill_keys.
  - intros k s' Hk. unfold truediv. rewrite decide_False; [done|].
    apply elem_of_keys, elem_of_dom in Hk as [links Hk]. by eapply size_pos_lookup.
Qed.

Lemma val_uniform_rank corpus p :
  p ∈ dom corpus → val (uniform_rank corpus) p = 1 / Qlen (size corpus).
Proof.
  intros Hp. unfold val, uniform_rank.
  by rewrite lookup_fill, decide_True by by apply elem_of_keys.
Qed.

(** ** A single page without links *)

Lemma next_rank_isolated (A : string) d r :
  val r A == 1 → next_rank {[A := ∅]} d r A == 1.
Proof.
  intros Hr. unfold next_rank, prob_2, items.
  rewrite map_size_singleton, map_to_list_singleton.
  cbn [foldl fst snd].
  assert (effective_links {[A := ∅]} ∅ = {[A]}) as ->.
  { unfold effective_links. rewrite decide_True by apply size_empty.
    apply dom_singleton_L. }
  rewrite decide_True by by apply elem_of_singleton.
  rewrite size_singleton, Hr. unfold Qlen. simpl. field.
Qed.

(** C9: on a corpus of one page without links, [iterate_pagerank] returns
    after the first round (whatever fuel is left), with a dictionary
    whose only entry is that page, of value 1, for every damping factor
    (in particular for those in (0,1)). *)
Theorem iterate_pagerank_isolated (A : string) (d : Q) (fuel : nat) :
  ∃ pagerank v,
    iterate_pagerank (S fuel) {[A := ∅]} d = Some (Ok pagerank) ∧
    dom pagerank = {[A]} ∧
    pagerank !! A = Some v ∧ v == 1.
Proof.
  set (corpus := {[A := ∅]} : gmap string (gset string)).
  assert (HA : A ∈ dom corpus) by (unfold corpus; rewrite dom_singleton_L; set_solver).
  assert (Hu : val (uniform_rank corpus) A == 1).
  { rewrite val_uniform_rank by done. unfold corpus.
    rewrite map_size_singleton. reflexivity. }
  pose proof (next_rank_isolated A d _ Hu) as Hnext. fold corpus in Hnext.
  exists (next_ranks corpus d (uniform_rank corpus)),
         (next_rank corpus d (uniform_rank corpus) A).
  destruct (initial_state_uniform corpus) as (flg & Hinit & Hinv).
  unfold iterate_pagerank. rewrite Hinit. cbn [iterate_loop].
  split; [|split; [|split]].
  - destruct (loop_body_cases corpus d _ Hinv) as [[_ ->]|[Hn _]]; [done|].
    destruct Hn. intros p Hp. cbn [st_prev_rank].
    assert (p = A) as -> by (unfold corpus in Hp; rewrite dom_singleton_L in Hp; set_solver).
    rewrite val_next_ranks by done. apply Qabs_Qlt_condition.
    unfold threshold. split; lra.
  - rewrite dom_next_ranks. unfold corpus. by rewrite dom_singleton_L.
  - unfold next_ranks. by rewrite lookup_fill, decide_True by by apply elem_of_keys.
  - exact Hnext.
Qed.

(** ** A round as a linear map *)

Section spread.
Variable corpus : gmap string (gset string).
Implicit Types (g h : string → Q) (p q : string).

Lemma weight_nonneg p it : 0 <= weight corpus p it.
Proof.
  unfold weight. case_decide; [|apply Qle_refl].
  apply Qdiv_nonneg; [lra|apply Qlen_nonneg].
Qed.

Lemma prob_2_spread r p : prob_2 corpus r p == spread corpus (val r) p.
Proof.
  unfold prob_2, spread.
  rewrite (foldl_sumQ (λ it, p ∈ effective_links corpus it.2)
            (λ it, val r it.1 / Qlen (size (effective_links corpus it.2)))).
  rewrite Qplus_0_l. apply sumQ_ext. intros it _. unfold weight.
  case_decide; unfold Qdiv; ring.
Qed.

Lemma next_rank_spread d r p :
  next_rank corpus d r p
  == (1 - d) / Qlen (size corpus) + d * spread corpus (val r) p.
Proof. unfold next_rank. by rewrite prob_2_spread. Qed.

(** The shares of one page add up to at most 1 ... *)
Lemma weight_total_le it :
  sumQ (λ p, weight corpus p it) (keys corpus) <= 1.
Proof.
  unfold weight. rewrite sumQ_indicator.
  pose proof (filter_keys_length_le corpus (effective_links corpus it.2)) as Hle.
  destruct (decide (size (effective_links corpus it.2) = 0%nat)) as [Hm|Hm].
  - rewrite Hm in *. assert (length (filter (.∈ effective_links corpus it.2)
                                       (keys corpus)) = 0%nat) as -> by lia.
    unfold Qlen. by vm_compute.
  - apply Qlen_le in Hle. pose proof (Qlen_pos _ Hm) as Hpos.
    rewrite Qmult_one_div. apply Qle_shift_div_r; [done|]. lra.
Qed.

(** ... and to exactly 1 when the links stay inside the corpus. *)
Lemma weight_total_closed it :
  closed corpus → it ∈ items corpus →
  sumQ (λ p, weight corpus p it) (keys corpus) == 1.
Proof.
  intros Hclosed Hit. destruct it as [q links].
  apply elem_of_map_to_list in Hit.
  unfold weight. rewrite sumQ_indicator. cbn [snd].
  rewrite filter_keys_length_closed.
  - pose proof (Qlen_neq0 _ (effective_links_size _ _ _ Hit)). by field.
  - unfold effective_links. case_decide; [done|]. by apply (Hclosed q).
Qed.

Lemma spread_total g :
  sumQ (spread corpus g) (keys corpus)
  == sumQ (λ it, g it.1 * sumQ (λ p, weight corpus p it) (keys corpus))
          (items corpus).
Proof.
  unfold spread. rewrite sumQ_swap. apply sumQ_ext. intros it _.
  rewrite <- sumQ_scale. apply sumQ_ext. intros p _. ring.
Qed.

Lemma spread_total_le g :
  (∀ q, 0 <= g q) →
  sumQ (spread corpus g) (keys corpus) <= sumQ g (keys corpus).
Proof.
  intros Hg. rewrite spread_total. unfold keys at 2. rewrite sumQ_fmap.
  apply sumQ_le. intros it _. cbn beta. unfold compose.
  pose proof (weight_total_le it). pose proof (Hg it.1). nra.
Qed.

Lemma spread_total_closed g :
  closed corpus →
  sumQ (spread corpus g) (keys corpus) == sumQ g (keys corpus).
Proof.
  intros Hclosed. rewrite spread_total. unfold keys at 2. rewrite sumQ_fmap.
  apply sumQ_ext. intros it Hit. cbn beta. unfold compose.
  rewrite weight_total_closed by done. ring.
Qed.

Lemma spread_nonneg g p : (∀ q, 0 <= g q) → 0 <= spread corpus g p.
Proof.
  intros Hg. apply sumQ_nonneg. intros it _.
  apply Qmult_le_0_compat; [apply weight_nonneg|apply Hg].
Qed.

Lemma spread_minus g h p :
  spread corpus g p - spread corpus h p
  == spread corpus (λ q, g q - h q) p.
Proof.
  unfold spread.
  transitivity (sumQ (λ it, weight corpus p it * g it.1) (items corpus)
                + sumQ (λ it, (-1) * (weight corpus p it * h it.1)) (items corpus)).
  - rewrite sumQ_scale. ring.
  - rewrite <- sumQ_plus. apply sumQ_ext. intros it _. ring.
Qed.

Lemma spread_abs g p :
  Qabs (spread corpus g p) <= spread corpus (λ q, Qabs (g q)) p.
Proof.
  unfold spread. eapply Qle_trans; [apply sumQ_abs|].
  apply sumQ_le. intros it _. cbn beta.
  rewrite Qabs_Qmult, (Qabs_pos (weight corpus p it)) by apply weight_nonneg.
  apply Qle_refl.
Qed.

(** A round shrinks the distance between two rank assignments by the
    factor [d], in the sum of absolute differences. *)
Lemma next_rank_contraction d r r' :
  0 <= d →
  sumQ (λ p, Qabs (next_rank corpus d r p - next_rank corpus d r' p)) (keys corpus)
  <= d * sumQ (λ q, Qabs (val r q - val r' q)) (keys corpus).
Proof.
  intros Hd.
  eapply Qle_trans;
    [|apply Qmult_le_nonneg_l; [exact Hd|];
      apply (spread_total_le (λ q, Qabs (val r q - val r' q)));
      intros; apply Qabs_nonneg].
  rewrite <- sumQ_scale. apply sumQ_le. intros p _. cbn beta.
  assert (Hdiff : next_rank corpus d r p - next_rank corpus d r' p
                  == d * spread corpus (λ q, val r q - val r' q) p).
  { rewrite !next_rank_spread, <- spread_minus. ring. }
  rewrite Hdiff, Qabs_Qmult, (Qabs_pos d) by done.
  apply Qmult_le_nonneg_l; [done|]. apply spread_abs.
Qed.
End spread.

(** ** Termination of the loop *)

Lemma aggregate_change_next corpus d r :
  0 <= d →
  aggregate_change corpus (next_ranks corpus d r)
    (next_ranks corpus d (next_ranks corpus d r))
  <= d * aggregate_change corpus r (next_ranks corpus d r).
Proof.
  intros Hd. unfold aggregate_change.
  eapply Qle_trans; [|apply (next_rank_contraction corpus d r (next_ranks corpus d r) Hd)].
  apply Qle_lteq. right. apply sumQ_ext. intros p Hp%elem_of_keys.
  by rewrite !val_next_ranks.
Qed.

Lemma change_le_aggregate corpus r r' p :
  p ∈ dom corpus → Qabs (val r p - val r' p) <= aggregate_change corpus r r'.
Proof.
  intros Hp. unfold aggregate_change.
  apply (sumQ_elem_le (λ p, Qabs (val r p - val r' p))).
  - by apply elem_of_keys.
  - intros. apply Qabs_nonneg.
Qed.

Lemma iterate_loop_mono corpus d fuel fuel' st res :
  (fuel ≤ fuel')%nat →
  iterate_loop fuel corpus d st = Some res →
  iterate_loop fuel' corpus d st = Some res.
Proof.
  revert fuel' st. induction fuel as [|fuel IH]; intros fuel' st Hle Hrun; [done|].
  destruct fuel' as [|fuel']; [lia|]. cbn [iterate_loop] in *.
  destruct (loop_body corpus d st) as [[pagerank|st']|e]; [done| |done].
  apply IH; [lia|done].
Qed.

(** The number of rounds left is bounded in terms of the current change:
    with [x = 1/d - 1], a change below [threshold * (1 + n x)] leaves at
    most [n + 1] rounds. *)
Lemma iterate_loop_terminates corpus d x :
  0 < d → d * (1 + x) == 1 → 0 < x →
  ∀ n st,
    loop_inv corpus st →
    aggregate_change corpus (st_prev_rank st)
      (next_ranks corpus d (st_prev_rank st))
    < threshold * (1 + Qlen n * x) →
    ∃ pagerank, iterate_loop (S n) corpus d st = Some (Ok pagerank).
Proof.
  intros Hd Hx Hx0. induction n as [|n IH]; intros st Hinv Hchange.
  - destruct (loop_body_cases corpus d st Hinv) as [[_ Hb]|[Hn _]].
    + eexists. cbn [iterate_loop]. by rewrite Hb.
    + destruct Hn. intros p Hp.
      eapply Qle_lt_trans; [by apply change_le_aggregate|].
      eapply Qlt_le_trans; [exact Hchange|].
      unfold Qlen. simpl. ring_simplify. apply Qle_refl.
  - destruct (loop_body_cases corpus d st Hinv) as [[_ Hb]|[_ (flg & Hb & Hinv')]].
    + eexists. cbn [iterate_loop]. by rewrite Hb.
    + destruct (IH _ Hinv') as [pagerank Hrun].
      * cbn [st_prev_rank].
        eapply Qle_lt_trans; [apply aggregate_change_next; lra|].
        rewrite Qlen_S in Hchange.
        set (D := aggregate_change corpus (st_prev_rank st)
                    (next_ranks corpus d (st_prev_rank st))) in *.
        set (N := Qlen n) in *.
        assert (0 <= N) by apply Qlen_nonneg.
        assert (Ht : 0 < threshold) by by vm_compute.
        assert (d * D < d * (threshold * (1 + (N + 1) * x)))
          by (by apply Qmult_lt_l).
        assert (d * (threshold * (1 + (N + 1) * x))
                == threshold * (d * (1 + x) + N * (d * (1 + x) - d))) by ring.
        assert (1 - d <= x) by nra.
        assert (N * (1 - d) <= N * x) by (by apply Qmult_le_nonneg_l).
        assert (threshold * (1 + N * (1 - d)) <= threshold * (1 + N * x))
          by (apply Qmult_le_nonneg_l; lra).
        assert (threshold * (d * (1 + x) + N * (d * (1 + x) - d))
                == threshold * (1 + N * (1 - d))) by (rewrite Hx; ring).
        lra.
      * exists pagerank. cbn [iterate_loop]. rewrite Hb. exact Hrun.
Qed.

Lemma Q_archimedean (q : Q) : ∃ n : nat, q < Qlen n.
Proof.
  exists (Z.to_nat (Qfloor q + 1)).
  eapply Qlt_le_trans; [apply Qlt_floor|].
  unfold Qlen. rewrite <- Zle_Qle. lia.
Qed.

(** From any state of the loop, a damping factor in (0,1) leaves finitely
    many rounds. *)
Lemma iterate_loop_total corpus d st :
  0 < d → d < 1 → loop_inv corpus st →
  ∃ n pagerank, iterate_loop n corpus d st = Some (Ok pagerank).
Proof.
  intros Hd0 Hd1 Hinv.
  set (x := 1 / d - 1).
  assert (Hx : d * (1 + x) == 1) by (unfold x; field; lra).
  assert (Hx0 : 0 < x) by nra.
  set (D := aggregate_change corpus (st_prev_rank st)
              (next_ranks corpus d (st_prev_rank st))).
  assert (Ht : 0 < threshold) by by vm_compute.
  destruct (Q_archimedean (D / (threshold * x))) as [n Hn].
  destruct (iterate_loop_terminates corpus d x Hd0 Hx Hx0 n st Hinv) as [pagerank Hrun].
  - fold D. assert (Htx : 0 < threshold * x) by (by apply Qmult_lt_0_compat).
    assert (D == D / (threshold * x) * (threshold * x)) by (field; lra).
    assert (D / (threshold * x) * (threshold * x) < Qlen n * (threshold * x))
      by (by apply Qmult_lt_r).
    lra.
  - by exists (S n), pagerank.
Qed.

(** ** The loop in binary64

    On [Float64.eight_pages] with the damping factor [Float64.near_one]
    the rounding of line 140 undoes the damping: [(1 - d) / 8] is 2^-56,
    and each of [d * 0.25], [d * 0.125] and [d * 0.0625] plus 2^-56
    rounds back to 0.25, 0.125 and 0.0625.  The ranks of pages 0, 1 and
    2 then swing between 1/8 and (1/4, 1/16, 1/16) for ever. *)

Lemma float_iterate_loop_S fuel corpus d st :
  Float64.iterate_loop (S fuel) corpus d st
  = match Float64.loop_body corpus d st with
    | Raise e => Some (Raise e)
    | Ok (Float64.Break pagerank) => Some (Ok pagerank)
    | Ok (Float64.Continue st') => Float64.iterate_loop fuel corpus d st'
    end.
Proof. reflexivity. Qed.

Lemma float_eight_pages_dict :
  Float64.well_formed Float64.eight_pages ∧
  Float64.keys Float64.eight_pages ≠ [] ∧
  Float64.closed Float64.eight_pages.
Proof.
  split; [|split; [done|]].
  - apply (bool_decide_unpack (NoDup (Float64.keys Float64.eight_pages))).
    by vm_compute.
  - unfold Float64.closed, Float64.eight_pages.
    repeat (apply Forall_cons; split; [cbn; set_solver|]). apply Forall_nil_2.
Qed.

Lemma float_near_one : Float64.in_unit_interval Float64.near_one.
Proof. split; reflexivity. Qed.

Lemma float_initial_state :
  Float64.initial_state Float64.eight_pages
  = Ok (Float64.LoopState Float64.level Float64.level Float64.no_flags).
Proof. vm_compute. reflexivity. Qed.

Lemma float_round_first :
  Float64.loop_body Float64.eight_pages Float64.near_one
    (Float64.LoopState Float64.level Float64.level Float64.no_flags)
  = Ok (Float64.Continue
          (Float64.LoopState Float64.tilted Float64.tilted Float64.unsettled)).
Proof. vm_compute. reflexivity. Qed.

Lemma float_round_tilted :
  Float64.loop_body Float64.eight_pages Float64.near_one
    (Float64.LoopState Float64.tilted Float64.tilted Float64.unsettled)
  = Ok (Float64.Continue
          (Float64.LoopState Float64.level Float64.level Float64.unsettled)).
Proof. vm_compute. reflexivity. Qed.

Lemma float_round_level :
  Float64.loop_body Float64.eight_pages Float64.near_one
    (Float64.LoopState Float64.level Float64.level Float64.unsettled)
  = Ok (Float64.Continue
          (Float64.LoopState Float64.tilted Float64.tilted Float64.unsettled)).
Proof. vm_compute. reflexivity. Qed.

Lemma float_loop_never_exits fuel :
  Float64.iterate_loop fuel Float64.eight_pages Float64.near_one
    (Float64.LoopState Float64.tilted Float64.tilted Float64.unsettled) = None ∧
  Float64.iterate_loop fuel Float64.eight_pages Float64.near_one
    (Float64.LoopState Float64.level Float64.level Float64.unsettled) = None.
Proof.
  induction fuel as [|fuel [IHtilted IHlevel]]; [done|].
  rewrite !float_iterate_loop_S, float_round_tilted, float_round_level.
  by split.
Qed.

Lemma float_never_returns fuel :
  Float64.iterate_pagerank fuel Float64.eight_pages Float64.near_one = None.
Proof.
  unfold Float64.iterate_pagerank. rewrite float_initial_state.
  destruct fuel as [|fuel]; [done|].
  rewrite float_iterate_loop_S, float_round_first.
  apply float_loop_never_exits.
Qed.

(** C8 as stated does not hold of the code: in binary64, on a corpus of
    eight pages in which every link leads to a page of the corpus, with
    the damping factor 1 - 2^-53, the first round turns the uniform
    ranks into (1/4, 1/16, 1/16, 1/8, ...), the second turns these back
    into the uniform ranks, and so on: pages 0, 1 and 2 change by more
    than 0.001 in every round, and [iterate_pagerank] never returns. *)
Lemma iterate_pagerank_binary64_cycle :
  Float64.well_formed Float64.eight_pages ∧
  Float64.keys Float64.eight_pages ≠ [] ∧
  Float64.closed Float64.eight_pages ∧
  Float64.in_unit_interval Float64.near_one ∧
  Float64.initial_state Float64.eight_pages
  = Ok (Float64.LoopState Float64.level Float64.level Float64.no_flags) ∧
  Float64.loop_body Float64.eight_pages Float64.near_one
    (Float64.LoopState Float64.level Float64.level Float64.no_flags)
  = Ok (Float64.Continue
          (Float64.LoopState Float64.tilted Float64.tilted Float64.unsettled)) ∧
  Float64.loop_body Float64.eight_pages Float64.near_one
    (Float64.LoopState Float64.tilted Float64.tilted Float64.unsettled)
  = Ok (Float64.Continue
          (Float64.LoopState Float64.level Float64.level Float64.unsettled)) ∧
  Float64.loop_body Float64.eight_pages Float64.near_one
    (Float64.LoopState Float64.level Float64.level Float64.unsettled)
  = Ok (Float64.Continue
          (Float64.LoopState Float64.tilted Float64.tilted Float64.unsettled)) ∧
  (∀ fuel,
     Float64.iterate_pagerank fuel Float64.eight_pages Float64.near_one = None).
Proof.
  destruct float_eight_pages_dict as (Hdict & Hne & Hclosed).
  split; [exact Hdict|]. split; [exact Hne|]. split; [exact Hclosed|].
  split; [exact float_near_one|]. split; [exact float_initial_state|].
  split; [exact float_round_first|]. split; [exact float_round_tilted|].
  split; [exact float_round_level|]. exact float_never_returns.
Qed.

(** C8, as the code has it.  Computed over exact rationals, the loop of
    [iterate_pagerank] ends after finitely many rounds for every corpus
    (in particular every non-empty one) and every damping factor in
    (0,1): some number of rounds is enough fuel, and any larger amount
    gives the same result.  Computed in binary64, as the code does, and
    without a cap on the rounds, it does not end for every such input:
    there are a non-empty corpus whose links all lead to its pages and a
    damping factor in (0,1) for which no amount of fuel gives a
    result. *)
Theorem iterate_pagerank_terminates :
  (∀ corpus d,
     0 < d → d < 1 →
     ∃ rounds pagerank,
       ∀ fuel, (rounds ≤ fuel)%nat →
               iterate_pagerank fuel corpus d = Some (Ok pagerank)) ∧
  (∃ corpus d,
     Float64.well_formed corpus ∧
     Float64.keys corpus ≠ [] ∧
     Float64.closed corpus ∧
     Float64.in_unit_interval d ∧
     ∀ fuel, Float64.iterate_pagerank fuel corpus d = None).
Proof.
  assert (Hexact : ∀ corpus d,
             0 < d → d < 1 →
             ∃ rounds pagerank,
               ∀ fuel, (rounds ≤ fuel)%nat →
                       iterate_pagerank fuel corpus d = Some (Ok pagerank)).
  { intros corpus d Hd0 Hd1.
    destruct (initial_state_uniform corpus) as (flg & Hinit & Hinv).
    destruct (iterate_loop_total corpus d _ Hd0 Hd1 Hinv) as (n & pagerank & Hrun).
    exists n, pagerank. intros fuel Hfuel. unfold iterate_pagerank. rewrite Hinit.
    by eapply iterate_loop_mono. }
  split; [exact Hexact|].
  destruct float_eight_pages_dict as (Hdict & Hne & Hclosed).
  exists Float64.eight_pages, Float64.near_one.
  split; [exact Hdict|]. split; [exact Hne|]. split; [exact Hclosed|].
  split; [exact float_near_one|]. exact float_never_returns.
Qed.

Lemma iterate_pagerank_terminates_witness :
  ∃ rounds pagerank,
    ∀ fuel, (rounds ≤ fuel)%nat →
            iterate_pagerank fuel three_pages (85 # 100) = Some (Ok pagerank).
Proof.
  apply (proj1 iterate_pagerank_terminates three_pages (85 # 100)); reflexivity.
Defined.

(** ** The ranks are a distribution *)

Lemma distribution_val_nonneg corpus r q : distribution corpus r → 0 <= val r q.
Proof.
  intros (_ & Hpos & _). unfold val.
  destruct (r !! q) as [v|] eqn:Hq; [by eapply Hpos|apply Qle_refl].
Qed.

Lemma distribution_uniform corpus :
  corpus ≠ ∅ → distribution corpus (uniform_rank corpus).
Proof.
  intros Hne. assert (Hk : size corpus ≠ 0%nat) by by rewrite map_size_empty_iff.
  unfold distribution, uniform_rank. split; [apply dom_fill_keys|]. split.
  - intros p v. rewrite lookup_fill. case_decide; [|by rewrite lookup_empty].
    intros [= <-]. apply Qdiv_nonneg; [lra|apply Qlen_nonneg].
  - rewrite total_fill, sumQ_const, length_keys.
    apply Qlen_neq0 in Hk. by field.
Qed.

Lemma distribution_next corpus d r :
  closed corpus → corpus ≠ ∅ → 0 <= d → d <= 1 →
  distribution corpus r → distribution corpus (next_ranks corpus d r).
Proof.
  intros Hclosed Hne Hd0 Hd1 Hr.
  assert (Hk : size corpus ≠ 0%nat) by by rewrite map_size_empty_iff.
  split; [apply dom_next_ranks|]. split.
  - intros p v. unfold next_ranks. rewrite lookup_fill.
    case_decide; [|by rewrite lookup_empty]. intros [= <-].
    rewrite next_rank_spread.
    assert (0 <= (1 - d) / Qlen (size corpus))
      by (apply Qdiv_nonneg; [lra|apply Qlen_nonneg]).
    assert (0 <= spread corpus (val r) p)
      by (apply spread_nonneg; intros; by eapply distribution_val_nonneg).
    nra.
  - unfold next_ranks. rewrite total_fill.
    rewrite (sumQ_ext _ (λ p, (1 - d) / Qlen (size corpus)
                              + d * spread corpus (val r) p))
      by (intros; apply next_rank_spread).
    rewrite sumQ_plus, sumQ_const, sumQ_scale, length_keys.
    rewrite spread_total_closed by done.
    destruct Hr as (Hdom & _ & Htotal).
    rewrite <- (total_dom corpus r), Htotal by done.
    apply Qlen_neq0 in Hk. by field.
Qed.

(** A property of the ranks that every round preserves holds of the
    result of the loop. *)
Lemma iterate_loop_preserves corpus d (P : gmap string Q → Prop) :
  (∀ r, dom r = dom corpus → P r → P (next_ranks corpus d r)) →
  ∀ fuel st pagerank,
    loop_inv corpus st → P (st_prev_rank st) →
    iterate_loop fuel corpus d st = Some (Ok pagerank) → P pagerank.
Proof.
  intros Hstep. induction fuel as [|fuel IH]; intros st pagerank Hinv HP Hrun; [done|].
  cbn [iterate_loop] in Hrun.
  destruct (loop_body_cases corpus d st Hinv) as [[_ Hb]|[_ (flg & Hb & Hinv')]];
    rewrite Hb in Hrun.
  - injection Hrun as <-. apply Hstep; [apply Hinv|done].
  - eapply IH; [exact Hinv'| |exact Hrun]. cbn. apply Hstep; [apply Hinv|done].
Qed.

(** C7: on a non-empty corpus whose links all point to pages of the
    corpus, with a damping factor in (0,1): the uniform initial ranks
    have one entry per page, no negative value and total 1; every round
    preserves this; and [iterate_pagerank] returns ranks that satisfy
    it. *)
Theorem iterate_pagerank_distribution corpus d :
  closed corpus → corpus ≠ ∅ → 0 < d → d < 1 →
  (∃ st, initial_state corpus = Ok st ∧ loop_inv corpus st ∧
         st_pagerank st = st_prev_rank st ∧
         distribution corpus (st_prev_rank st)) ∧
  (∀ st, loop_inv corpus st → distribution corpus (st_prev_rank st) →
     ∃ pagerank,
       update_round corpus d (st_prev_rank st) (st_pagerank st) = Ok pagerank ∧
       distribution corpus pagerank) ∧
  (∃ rounds pagerank,
     (∀ fuel, (rounds ≤ fuel)%nat →
              iterate_pagerank fuel corpus d = Some (Ok pagerank)) ∧
     distribution corpus pagerank).
Proof.
  intros Hclosed Hne Hd0 Hd1.
  destruct (initial_state_uniform corpus) as (flg & Hinit & Hinv).
  pose proof (distribution_uniform corpus Hne) as Hu.
  split; [|split].
  - eexists. split; [exact Hinit|]. split; [exact Hinv|]. split; [done|exact Hu].
  - intros st (Hprev & Hpr & Hflg) Hdist. eexists.
    split; [by apply update_round_next_ranks|].
    apply distribution_next; [done..|lra|lra|done].
  - destruct (iterate_loop_total corpus d _ Hd0 Hd1 Hinv) as (rounds & pagerank & Hrun).
    exists rounds, pagerank. split.
    { intros fuel Hfuel. unfold iterate_pagerank. rewrite Hinit.
      by eapply iterate_loop_mono. }
    eapply (iterate_loop_preserves corpus d (distribution corpus));
      [|exact Hinv|exact Hu|exact Hrun].
    intros r _ Hr. apply distribution_next; [done..|lra|lra|done].
Qed.

Lemma iterate_pagerank_distribution_witness :
  ∃ rounds pagerank,
    (∀ fuel, (rounds ≤ fuel)%nat →
             iterate_pagerank fuel three_pages (85 # 100) = Some (Ok pagerank)) ∧
    distribution three_pages pagerank.
Proof.
  refine (proj2 (proj2 (iterate_pagerank_distribution three_pages (85 # 100) _ _ _ _))).
  - apply (bool_decide_unpack (closed three_pages)). by vm_compute.
  - apply (bool_decide_unpack (three_pages ≠ ∅)). by vm_compute.
  - reflexivity.
  - reflexivity.
Defined.

(** ** The weighted draw *)

Lemma last_cumsum_from a p :
  p ≠ [] → List.last (cumsum_from a p) 0 == a + Qsum p.
Proof.
  revert a. induction p as [|x p IH]; intros a Hne; [done|].
  destruct p as [|y p].
  - cbn. ring.
  - change (List.last (cumsum_from a (x :: y :: p)) 0)
      with (List.last (cumsum_from (a + x) (y :: p)) 0).
    rewrite IH by done. change (Qsum (x :: y :: p)) with (x + Qsum (y :: p)). ring.
Qed.

(** The index the inversion finds: the sums of the probabilities before
    it and through it enclose [u]. *)
Lemma searchsorted_right_spec p a T u :
  0 < T → a <= u * T → (∀ y, y ∈ p → 0 <= y) → u * T < a + Qsum p →
  ∃ idx x,
    searchsorted_right ((λ c, c / T) <$> cumsum_from a p) u = idx ∧
    p !! idx = Some x ∧
    a + Qsum (take idx p) <= u * T ∧
    u * T < a + Qsum (take idx p) + x.
Proof.
  intros HT. revert a. induction p as [|y p IH]; intros a Ha Hpos Hu.
  - unfold Qsum in Hu. cbn in Hu. lra.
  - change (Qsum (y :: p)) with (y + Qsum p) in Hu.
    cbn [cumsum_from fmap list_fmap searchsorted_right].
    destruct (decide (u < (a + y) / T)) as [Hlt|Hge].
    + exists 0%nat, y. split; [done|]. split; [done|].
      change (Qsum (take 0 (y :: p))) with 0.
      assert (u * T < (a + y) / T * T) by (by apply Qmult_lt_r).
      assert ((a + y) / T * T == a + y) by (field; lra).
      split; lra.
    + assert (Hle : (a + y) / T <= u) by (by apply Qnot_lt_le).
      assert ((a + y) / T * T <= u * T) by (by apply Qmult_le_r).
      assert ((a + y) / T * T == a + y) by (field; lra).
      destruct (IH (a + y)) as (idx & x & Hidx & Hx & Hlo & Hhi);
        [lra|intros z Hz; apply Hpos; by right|lra|].
      exists (S idx), x. split; [by rewrite Hidx|]. split; [done|].
      change (Qsum (take (S idx) (y :: p))) with (y + Qsum (take idx p)).
      split; lra.
Qed.

(** On a distribution and a variate in [0,1), [numpy.random.choice]
    passes its checks and returns the key that the variate selects,
    without its trailing NUL characters. *)
Lemma np_random_choice_draw u (probabilities : gmap string Q) :
  probabilities ≠ ∅ →
  (∀ p v, probabilities !! p = Some v → 0 <= v) →
  total probabilities == 1 →
  0 <= u → u < 1 →
  ∃ key,
    np_random_choice u (keys probabilities) (items probabilities).*2
    = Ok (rstrip_nul key) ∧
    drawn probabilities u key.
Proof.
  intros Hne Hpos Htotal Hu0 Hu1. unfold np_random_choice.
  assert (Hlen : length (keys probabilities) ≠ 0%nat)
    by (rewrite length_keys; by rewrite map_size_empty_iff).
  rewrite decide_False by done.
  rewrite decide_False by (unfold keys; rewrite !length_fmap; tauto).
  destruct (existsb _ _) eqn:Hneg.
  { apply existsb_exists in Hneg as (x & Hx & Hlt).
    apply bool_decide_eq_true_1 in Hlt.
    apply list_elem_of_In, list_elem_of_fmap in Hx as ([k v] & -> & Hin).
    apply elem_of_map_to_list in Hin. apply Hpos in Hin. cbn in Hlt. lra. }
  fold (total probabilities).
  rewrite decide_False; last first.
  { intros Hbad. assert (Qabs (total probabilities - 1) <= 0)
      by (apply Qabs_Qle_condition; split; lra).
    assert (0 < atol) by by vm_compute. lra. }
  set (p := (items probabilities).*2) in *.
  assert (Hp : p ≠ []).
  { intros Hnil. apply Hlen. unfold keys. rewrite length_fmap.
    rewrite <- (length_fmap snd). fold p. by rewrite Hnil. }
  assert (Hsum : Qsum p == 1) by (unfold total in Htotal; by fold p in Htotal).
  assert (Hlast : List.last (cumsum p) 0 == 1).
  { unfold cumsum. rewrite last_cumsum_from by done. lra. }
  cbv zeta. unfold cumsum at 2.
  set (T := List.last (cumsum p) 0) in *.
  assert (HuT : u * T == u)
    by (transitivity (u * 1); [apply Qmult_comp; [reflexivity|exact Hlast]|ring]).
  destruct (searchsorted_right_spec p 0 T u) as (idx & x & -> & Hx & Hlo & Hhi);
    [lra|lra| |lra|].
  { intros y ([k v] & -> & Hin)%list_elem_of_fmap.
    apply elem_of_map_to_list in Hin. by eapply Hpos. }
  unfold p in Hx. rewrite list_lookup_fmap in Hx.
  destruct (items probabilities !! idx) as [[key v]|] eqn:Hit; [|done].
  injection Hx as <-. exists key. split.
  - unfold list_getitem, keys. by rewrite list_lookup_fmap, Hit.
  - exists idx, v. fold p. cbn [snd] in *. split; [done|]. split; lra.
Qed.

Lemma drawn_lookup (probabilities : gmap string Q) u key :
  drawn probabilities u key →
  ∃ v, probabilities !! key = Some v ∧ 0 < v.
Proof.
  intros (idx & v & Hit & Hlo & Hhi). exists v. split; [|lra].
  apply elem_of_map_to_list. by eapply list_elem_of_lookup_2.
Qed.

(** ** The sampling estimator *)

Lemma random_choice_ok {A} seed (corpus : gmap string A) :
  corpus ≠ ∅ →
  ∃ page, random_choice seed (keys corpus) = Ok page ∧ page ∈ dom corpus.
Proof.
  intros Hne. unfold random_choice.
  assert (Hlen : length (keys corpus) ≠ 0%nat)
    by (rewrite length_keys; by rewrite map_size_empty_iff).
  rewrite decide_False by done. unfold list_getitem.
  destruct (lookup_lt_is_Some_2 (keys corpus) (seed mod length (keys corpus)))
    as [page Hpage]; [by apply Nat.mod_upper_bound|].
  rewrite Hpage. exists page. split; [done|].
  apply elem_of_keys. by eapply list_elem_of_lookup_2.
Qed.


Section walk.
Variables (uniform : nat → Q) (corpus : gmap string (gset string)) (d : Q).
Hypothesis closed_corpus : closed corpus.
Hypothesis nul_free_corpus : nul_free corpus.
Hypothesis d_pos : 0 < d.
Hypothesis d_lt_1 : d < 1.
Hypothesis uniform_range : ∀ i, 0 <= uniform i ∧ uniform i < 1.

Lemma transition_model_ok page :
  page ∈ dom corpus →
  ∃ probabilities,
    transition_model corpus page d = Ok probabilities ∧
    distribution corpus probabilities.
Proof.
  intros [avail Hpage]%elem_of_dom.
  eexists. split; [by apply transition_model_fill|].
  split; [apply dom_fill_keys|]. split.
  - intros p v. rewrite lookup_fill. case_decide; [|by rewrite lookup_empty].
    intros [= <-]. apply transition_value_nonneg; lra.
  - rewrite total_fill, transition_value_sum by by eapply size_pos_lookup.
    case_decide as Hm; [reflexivity|].
    replace (avail ∩ dom corpus) with avail
      by (specialize (closed_corpus _ _ Hpage); set_solver).
    apply Qlen_neq0 in Hm. by field.
Qed.

Lemma sample_step_ok i sample :
  length sample = S i → Forall (.∈ dom corpus) sample →
  ∃ current_page next_page,
    sample !! i = Some current_page ∧
    walk_step corpus d (uniform i) current_page next_page ∧
    next_page ∈ dom corpus ∧
    sample_step uniform corpus d i sample = Ok (sample ++ [next_page]).
Proof.
  intros Hlen Hall.
  destruct (lookup_lt_is_Some_2 sample i) as [current_page Hcur]; [lia|].
  assert (Hin : current_page ∈ dom corpus).
  { rewrite Forall_forall in Hall. by eapply Hall, list_elem_of_lookup_2. }
  destruct (transition_model_ok _ Hin) as (probabilities & Htm & Hdom & Hpos & Htot).
  destruct (np_random_choice_draw (uniform i) probabilities)
    as (key & Hdraw & Hdrawn); [|done|done|apply uniform_range..|].
  { intros ->. rewrite dom_empty_L in Hdom. rewrite <- Hdom in Hin.
    by apply not_elem_of_empty in Hin. }
  assert (Hkey : key ∈ dom corpus).
  { destruct (drawn_lookup _ _ _ Hdrawn) as (v & Hv & _).
    rewrite <- Hdom. apply elem_of_dom. by eexists. }
  rewrite (nul_free_corpus key Hkey) in Hdraw.
  exists current_page, key. split; [done|].
  split; [by exists probabilities|]. split; [done|].
  unfold sample_step, list_getitem. by rewrite Hcur, bind_Ok, Htm, bind_Ok, Hdraw.
Qed.

Lemma walk_loop m i sample :
  length sample = S i → Forall (.∈ dom corpus) sample →
  ∃ sample',
    for_each (seq i m) (sample_step uniform corpus d) sample = Ok sample' ∧
    length sample' = S (i + m) ∧
    Forall (.∈ dom corpus) sample' ∧
    sample `prefix_of` sample' ∧
    ∀ j, (i ≤ j < i + m)%nat →
      ∃ current_page next_page,
        sample' !! j = Some current_page ∧
        sample' !! S j = Some next_page ∧
        walk_step corpus d (uniform j) current_page next_page.
Proof.
  revert i sample. induction m as [|m IH]; intros i sample Hlen Hall.
  - exists sample. split; [done|]. split; [lia|]. split; [done|].
    split; [done|]. intros j Hj. lia.
  - destruct (sample_step_ok i sample Hlen Hall)
      as (cur & next & Hcur & Hstep & Hnext & Hrun).
    destruct (IH (S i) (sample ++ [next])) as (sample' & Hloop & Hlen' & Hall' & Hpre & Hsteps).
    { rewrite length_app. cbn. lia. }
    { apply Forall_app. split; [done|]. by apply Forall_singleton. }
    exists sample'. cbn [seq for_each]. rewrite Hrun, bind_Ok.
    split; [exact Hloop|]. split; [lia|]. split; [done|].
    split; [etrans; [by apply prefix_app_r|done]|].
    intros j Hj. destruct (decide (j = i)) as [->|Hne].
    + exists cur, next. split; [|split; [|done]].
      * eapply prefix_lookup_Some; [|done]. by apply lookup_app_l_Some.
      * eapply prefix_lookup_Some; [|done].
        rewrite lookup_app_r by lia. by rewrite Hlen, Nat.sub_diag.
    + apply Hsteps. lia.
Qed.
End walk.

Lemma count_cons page x sample :
  count page (x :: sample)
  = ((if decide (x = page) then 1 else 0) + count page sample)%nat.
Proof. unfold count. rewrite filter_cons. by case_decide. Qed.

Lemma sumQ_one_hot (x : string) (K : list string) :
  NoDup K → x ∈ K → sumQ (λ p, if decide (x = p) then 1 else 0) K == 1.
Proof.
  induction 1 as [|y K Hy _ IH]; intros Hx; [by apply elem_of_nil in Hx|].
  rewrite sumQ_cons. apply elem_of_cons in Hx as [->|Hx].
  - rewrite decide_True by done.
    rewrite (sumQ_ext _ (λ _, 0)), sumQ_zero; [ring|].
    intros p Hp. rewrite decide_False; [reflexivity|]. by intros ->.
  - rewrite decide_False by (by intros ->). rewrite IH by done. ring.
Qed.

(** The counts of the pages add up to the length of the sample. *)
Lemma count_total {A} (corpus : gmap string A) sample :
  Forall (.∈ dom corpus) sample →
  sumQ (λ p, Qlen (count p sample)) (keys corpus) == Qlen (length sample).
Proof.
  induction 1 as [|x sample Hx _ IH].
  - rewrite (sumQ_ext _ (λ _, 0)), sumQ_zero; [reflexivity|]. intros; reflexivity.
  - rewrite (sumQ_ext _ (λ p, (if decide (x = p) then 1 else 0)
                              + Qlen (count p sample))).
    + rewrite sumQ_plus, IH, sumQ_one_hot; [|apply keys_NoDup|by apply elem_of_keys].
      cbn [length]. rewrite Qlen_S. ring.
    + intros p _. rewrite count_cons. case_decide.
      * change (1 + count p sample)%nat with (S (count p sample)).
        rewrite Qlen_S. ring.
      * cbn. ring.
Qed.

Lemma frequencies_fill corpus sample :
  sample ≠ [] →
  frequencies corpus sample
  = Ok (fill (keys corpus)
          (λ p, Qlen (count p sample) / Qlen (length sample)) ∅).
Proof.
  intros Hne. apply for_each_fill. intros k s' _. unfold truediv.
  rewrite decide_False; [done|]. by destruct sample.
Qed.

Lemma frequencies_distribution corpus sample :
  sample ≠ [] → Forall (.∈ dom corpus) sample →
  ∃ ranks,
    frequencies corpus sample = Ok ranks ∧
    dom ranks = dom corpus ∧
    (∀ p, p ∈ dom corpus →
       ranks !! p = Some (Qlen (count p sample) / Qlen (length sample))) ∧
    (∀ p v, ranks !! p = Some v → 0 <= v) ∧
    total ranks == 1.
Proof.
  intros Hne Hall. eexists. split; [by apply frequencies_fill|].
  split; [apply dom_fill_keys|]. split; [|split].
  - intros p Hp. by rewrite lookup_fill, decide_True by by apply elem_of_keys.
  - intros p v. rewrite lookup_fill. case_decide; [|by rewrite lookup_empty].
    intros [= <-]. apply Qdiv_nonneg; apply Qlen_nonneg.
  - rewrite total_fill.
    rewrite (sumQ_ext _ (λ p, (1 / Qlen (length sample)) * Qlen (count p sample)))
      by (intros; unfold Qdiv; ring).
    rewrite sumQ_scale, count_total by done.
    assert (length sample ≠ 0%nat) as Hlen%Qlen_neq0 by by destruct sample.
    by field.
Qed.




(** ** Failure of the sampling estimator *)

(** A run with a sample count of zero that returns a result. *)
Lemma sample_pagerank_zero_samples :
  ∃ ranks,
    sample_pagerank 0 (λ _, 0) two_cycle (85 # 100) 0 = Ok ranks ∧
    ranks !! "a" = Some (Qlen 1 / Qlen 1) ∧
    ranks !! "b" = Some (Qlen 0 / Qlen 1).
Proof.
  exists (fill (keys two_cycle) (λ p, Qlen (count p ["a"]) / Qlen 1) ∅).
  split; [by vm_compute|]. split; by vm_compute.
Qed.

(** C4, as the code has it: on an empty corpus [sample_pagerank] raises
    [IndexError] (from [random.choice], before any sampling); on a
    non-empty corpus a sample count [n <= 0] does not fail: the sequence
    is the start page alone, and the result gives it rank 1 and every
    other page rank 0. *)
Theorem sample_pagerank_failure seed uniform corpus d n :
  (corpus = ∅ → sample_pagerank seed uniform corpus d n = Raise IndexError) ∧
  (corpus ≠ ∅ → (n ≤ 0)%Z →
   ∃ start ranks,
     random_choice seed (keys corpus) = Ok start ∧
     sample_walk seed uniform corpus d n = Ok [start] ∧
     sample_pagerank seed uniform corpus d n = Ok ranks ∧
     dom ranks = dom corpus ∧
     (∃ v, ranks !! start = Some v ∧ v == 1) ∧
     (∀ p, p ∈ dom corpus → p ≠ start → ∃ v, ranks !! p = Some v ∧ v == 0)).
Proof.
  split.
  - intros ->. reflexivity.
  - intros Hne Hn.
    destruct (random_choice_ok seed corpus Hne) as (start & Hstart & Hin).
    assert (Hwalk : sample_walk seed uniform corpus d n = Ok [start]).
    { unfold sample_walk, range. rewrite Hstart, bind_Ok.
      by replace (Z.to_nat n) with 0%nat by lia. }
    destruct (frequencies_distribution corpus [start])
      as (ranks & Hfreq & Hdom & Hval & _); [done|by apply Forall_singleton|].
    exists start, ranks. split; [done|]. split; [done|].
    split; [unfold sample_pagerank; by rewrite Hwalk, bind_Ok|].
    split; [done|]. split.
    + eexists. split; [by apply Hval|]. rewrite count_cons, decide_True by done.
      by vm_compute.
    + intros p Hp Hps. eexists. split; [by apply Hval|].
      rewrite count_cons, decide_False by done. by vm_compute.
Qed.

Lemma sample_pagerank_failure_witness :
  sample_pagerank 0 (λ _, 0) ∅ (85 # 100) 10 = Raise IndexError ∧
  ∃ ranks, sample_pagerank 0 (λ _, 0) two_cycle (85 # 100) (-3) = Ok ranks.
Proof.
  split.
  - apply (sample_pagerank_failure 0 (λ _, 0) ∅ (85 # 100) 10). reflexivity.
  - destruct (proj2 (sample_pagerank_failure 0 (λ _, 0) two_cycle (85 # 100) (-3)))
      as (start & ranks & _ & _ & Hrun & _).
    + apply (bool_decide_unpack (two_cycle ≠ ∅)). by vm_compute.
    + lia.
    + by exists ranks.
Defined.


(** ** [crawl] *)

(** The first loop: a dictionary built from the items of another. *)
Lemma for_each_items {A B} (h : string → A → option B)
    (body : string * A → gmap string B → result (gmap string B))
    (d : gmap string A) :
  (∀ f c s, body (f, c) s
            = Ok (match h f c with Some v => <[f := v]> s | None => s end)) →
  for_each (items d) body ∅ = Ok (map_imap h d).
Proof.
  intros Hbody.
  assert (Hloop : ∀ l s, NoDup l.*1 →
    ∃ m, for_each l body s = Ok m ∧
         ∀ f, m !! f = match (list_to_map l : gmap string A) !! f with
                       | Some c => match h f c with
                                   | Some v => Some v
                                   | None => s !! f
                                   end
                       | None => s !! f
                       end).
  { induction l as [|[f0 c0] l IH]; intros s Hnd.
    - exists s. split; [done|]. intros f. by rewrite list_to_map_nil, lookup_empty.
    - apply NoDup_cons in Hnd as [Hf0 Hnd]. cbn [for_each].
      rewrite Hbody, bind_Ok.
      destruct (IH (match h f0 c0 with Some v => <[f0 := v]> s | None => s end) Hnd)
        as (m & Hm & Hlook).
      exists m. split; [done|]. intros f. rewrite Hlook, list_to_map_cons.
      destruct (decide (f = f0)) as [->|Hne].
      + rewrite lookup_insert_eq.
        rewrite (not_elem_of_list_to_map_1 (M := gmap string) _ _ Hf0).
        destruct (h f0 c0); [by rewrite lookup_insert_eq|done].
      + rewrite lookup_insert_ne by done.
        destruct (list_to_map l !! f) as [c|]; [destruct (h f c); [done|]|];
          destruct (h f0 c0); by rewrite ?lookup_insert_ne. }
  destruct (Hloop (items d) ∅ (NoDup_fst_map_to_list d)) as (m & Hm & Hlook).
  rewrite Hm. f_equal. apply map_eq. intros f.
  rewrite Hlook, map_lookup_imap. unfold items. rewrite list_to_map_to_list.
  destruct (d !! f) as [c|]; cbn; [|by rewrite lookup_empty].
  destruct (h f c); [done|by rewrite lookup_empty].
Qed.

(** The second loop (lines 44-48): every out-set is cut down to the keys. *)
Lemma for_each_filter_links (P : gmap string (gset string)) :
  for_each (keys P) (λ filename pages,
    links ← getitem pages filename;
    Ok (<[filename := filter (λ link, link ∈ dom pages) links]> pages)) P
  = Ok ((λ links, filter (λ link, link ∈ dom P) links) <$> P).
Proof.
  assert (Hloop : ∀ l s, NoDup l → dom s = dom P →
    (∀ k, k ∈ l → is_Some (P !! k) ∧ s !! k = P !! k) →
    ∃ m, for_each l (λ filename pages,
           links ← getitem pages filename;
           Ok (<[filename := filter (λ link, link ∈ dom pages) links]> pages)) s
         = Ok m ∧
         ∀ k, m !! k = if decide (k ∈ l)
                       then (λ links, filter (λ link, link ∈ dom P) links) <$> P !! k
                       else s !! k).
  { induction l as [|k0 l IH]; intros s Hnd Hdom Hl.
    - exists s. split; [done|]. intros k.
      by rewrite decide_False by apply not_elem_of_nil.
    - apply NoDup_cons in Hnd as [Hk0 Hnd].
      destruct (Hl k0) as [[links HP] Hs]; [left|].
      assert (Hget : getitem s k0 = Ok links) by (unfold getitem; by rewrite Hs, HP).
      cbn [for_each]. rewrite Hget, bind_Ok, bind_Ok, Hdom.
      destruct (IH (<[k0 := filter (λ link, link ∈ dom P) links]> s) Hnd)
        as (m & Hm & Hlook).
      + rewrite dom_insert_L, Hdom.
        assert (k0 ∈ dom P) by (apply elem_of_dom; by eexists). set_solver.
      + intros k Hk. split; [apply Hl; by right|].
        rewrite lookup_insert_ne by (by intros ->). apply Hl. by right.
      + exists m. split; [done|]. intros k. rewrite Hlook.
        destruct (decide (k ∈ l)) as [Hin|Hnin].
        * rewrite decide_True by (by right). done.
        * destruct (decide (k = k0)) as [->|Hne].
          -- rewrite decide_True by left. by rewrite lookup_insert_eq, HP.
          -- rewrite decide_False by (rewrite elem_of_cons; tauto).
             by rewrite lookup_insert_ne. }
  destruct (Hloop (keys P) P (keys_NoDup P) eq_refl) as (m & Hm & Hlook).
  { intros k Hk%elem_of_keys%elem_of_dom. done. }
  rewrite Hm. f_equal. apply map_eq. intros k. rewrite Hlook, lookup_fmap.
  case_decide as Hk; [done|].
  assert (P !! k = None) as ->; [|done].
  apply not_elem_of_dom. by rewrite <- elem_of_keys.
Qed.

Lemma crawl_with_eq findall directory :
  crawl_with findall directory = Ok (crawl_pages findall directory).
Proof.
  unfold crawl_with, crawl_pages.
  rewrite (for_each_items (λ filename contents,
    if endswith filename ".html"
    then Some (list_to_set (findall contents) ∖ {[filename]})
    else None)).
  - rewrite bind_Ok. apply for_each_filter_links.
  - intros f c s. by destruct (endswith f ".html").
Qed.

Lemma lookup_extracted findall directory f :
  extracted findall directory !! f
  = contents ← directory !! f;
    if endswith f ".html"
    then Some (list_to_set (findall contents) ∖ {[f]})
    else None.
Proof. unfold extracted. by rewrite map_lookup_imap. Qed.

Lemma dom_crawl_pages findall directory :
  dom (crawl_pages findall directory) = html_files directory.
Proof.
  unfold crawl_pages. rewrite dom_fmap_L. apply set_eq. intros f.
  unfold html_files. rewrite elem_of_filter, !elem_of_dom, lookup_extracted.
  destruct (directory !! f) as [c|]; cbn;
    [destruct (endswith f ".html")|]; unfold is_Some; naive_solver.
Qed.

Lemma dom_extracted findall directory :
  dom (extracted findall directory) = html_files directory.
Proof.
  apply set_eq. intros f. unfold html_files.
  rewrite elem_of_filter, !elem_of_dom, lookup_extracted.
  destruct (directory !! f) as [c|]; cbn;
    [destruct (endswith f ".html")|]; unfold is_Some; naive_solver.
Qed.

(** X1: [crawl] does not fail, whatever the pattern finds; the keys of
    its result are the file names of the directory that end in [.html];
    the out-set of a page holds exactly the links found in its text that
    are not the page itself and are keys of the result. *)
Theorem crawl_with_links findall directory :
  ∃ pages,
    crawl_with findall directory = Ok pages ∧
    (∀ page, page ∈ dom pages ↔
             is_Some (directory !! page) ∧ endswith page ".html" = true) ∧
    (∀ page links, pages !! page = Some links →
       ∃ contents, directory !! page = Some contents ∧
         ∀ link, link ∈ links ↔
                 link ∈ findall contents ∧ link ≠ page ∧ link ∈ dom pages).
Proof.
  eexists. split; [apply crawl_with_eq|].
  pose proof (dom_crawl_pages findall directory) as Hdom.
  split.
  - intros page. rewrite Hdom. unfold html_files.
    rewrite elem_of_filter, elem_of_dom. tauto.
  - intros page links. rewrite Hdom. unfold crawl_pages.
    rewrite lookup_fmap, lookup_extracted.
    destruct (directory !! page) as [contents|]; [|done]. cbn.
    destruct (endswith page ".html"); [|done]. cbn. intros [= <-].
    exists contents. split; [done|]. intros link.
    rewrite elem_of_filter, dom_extracted, elem_of_difference,
      elem_of_list_to_set, elem_of_singleton. tauto.
Qed.

Lemma crawl_pages_closed findall directory :
  closed (crawl_pages findall directory).
Proof.
  intros page links. unfold crawl_pages at 1. rewrite lookup_fmap.
  intros Hl link Hlink.
  destruct (extracted findall directory !! page) as [l|]; [|done].
  injection Hl as <-. apply elem_of_filter in Hlink as [Hlink _].
  unfold crawl_pages. by rewrite dom_fmap_L.
Qed.

(** X2: the result of [crawl] has no link to a page outside its keys and
    no page that links to itself, whatever the pattern finds. *)
Theorem crawl_with_closed findall directory :
  ∃ pages,
    crawl_with findall directory = Ok pages ∧
    closed pages ∧
    (∀ page links, pages !! page = Some links → page ∉ links).
Proof.
  eexists. split; [apply crawl_with_eq|]. split.
  - apply crawl_pages_closed.
  - intros page links. unfold crawl_pages. rewrite lookup_fmap, lookup_extracted.
    destruct (directory !! page) as [contents|]; [|done]. cbn.
    destruct (endswith page ".html"); [|done]. cbn. intros [= <-].
    rewrite elem_of_filter, elem_of_difference, elem_of_singleton. tauto.
Qed.

(** ** The pattern of line 39 *)

Lemma passes_char p : passes (re_char p).
Proof.
  intros Φ k Hk [|c s] cap r; cbn; [done|]. destruct (p c); [apply Hk|done].
Qed.

Lemma passes_seq m1 m2 : passes m1 → passes m2 → passes (re_seq m1 m2).
Proof.
  intros H1 H2 Φ k Hk s cap r. unfold re_seq. apply (H1 Φ).
  intros s' cap' r'. by apply (H2 Φ).
Qed.

Lemma passes_literal l : passes (re_literal l).
Proof.
  induction l as [|c l IH]; [intros Φ k Hk s cap r; apply Hk|].
  apply passes_seq; [apply passes_char|done].
Qed.

Lemma passes_optional m : passes m → passes (re_optional m).
Proof.
  intros Hm Φ k Hk s cap r. unfold re_optional.
  destruct (m s cap k) as [r'|] eqn:Hr; [|apply Hk].
  intros [= <-]. by apply (Hm Φ k Hk s cap).
Qed.

Lemma passes_plus_char p : passes (re_plus_char p).
Proof.
  intros Φ k Hk s. induction s as [|c s IH]; intros cap r; cbn; [done|].
  destruct (p c); [|done].
  destruct (re_plus_char p s cap k) as [r'|] eqn:Hr; [|apply Hk].
  intros [= <-]. by apply IH.
Qed.

(** A group around one character captures that character. *)
Lemma re_group_char p s cap k r :
  re_group (re_char p) s cap k = Some r →
  ∃ c s', k s' (Some (String c EmptyString)) = Some r.
Proof.
  unfold re_group, re_char. destruct s as [|c s]; [done|].
  destruct (p c); [|done]. intros Hk. exists c, s.
  by replace (length (c :: s) - length s)%nat with 1%nat in Hk by (cbn; lia).
Qed.

Lemma match_link_one_char s group rest :
  match_link s = Some (group, rest) → String.length group = 1%nat.
Proof.
  unfold match_link, link_pattern.
  set (k_end := λ (rest : list Ascii.ascii) (cap : capture),
                  Some (default EmptyString cap, rest)).
  set (tail := re_seq (re_group (re_char (λ c, negb (Ascii.eqb c quote))))
                 (re_literal [quote])).
  assert (Htail : ∀ s cap r, tail s cap k_end = Some r → String.length r.1 = 1%nat).
  { intros s' cap r Hr. unfold tail, re_seq in Hr.
    apply re_group_char in Hr as (c & s'' & Hr).
    apply (passes_literal [quote] (λ cap r, r.1 = default EmptyString cap) k_end)
      in Hr; [by rewrite Hr|].
    intros ? ? ? [= <-]. done. }
  intros Hm.
  change (String.length (group, rest).1 = 1%nat).
  revert Hm. generalize (group, rest). generalize (@None string). revert s.
  change (∀ s cap r,
    re_seq (re_literal (String.list_ascii_of_string "<a"))
      (re_seq (re_plus_char is_whitespace)
        (re_seq (re_optional (re_char (λ c, negb (Ascii.eqb c greater_than))))
          (re_seq (re_literal (String.list_ascii_of_string "href=" ++ [quote]))
            tail))) s cap k_end = Some r → String.length r.1 = 1%nat).
  intros s cap r.
  apply (passes_seq _ _ (passes_literal _)
           (passes_seq _ _ (passes_plus_char _)
              (passes_seq _ _ (passes_optional _ (passes_char _))
                 (passes_literal _)))
           (λ _ r, String.length r.1 = 1%nat)
           (λ s cap, tail s cap k_end) Htail s cap r).
Qed.

Lemma endswith_length s suffix :
  endswith s suffix = true → (String.length suffix ≤ String.length s)%nat.
Proof. unfold endswith. intros [Hle _]%andb_prop. by apply Nat.leb_le. Qed.

Lemma findall_from_one_char skip s link :
  link ∈ findall_from skip s → String.length link = 1%nat.
Proof.
  revert skip. induction s as [|c s IH]; intros skip; cbn [findall_from].
  - by intros ?%elem_of_nil.
  - destruct skip as [|skip]; [|apply IH].
    destruct (match_link (c :: s)) as [[group rest]|] eqn:Hm; [|apply IH].
    intros [->|Hin]%elem_of_cons; [by eapply match_link_one_char|by eapply IH].
Qed.

(** X3: every link that [re.findall] returns for the pattern of line 39
    is a string of exactly one character, so never a name that ends in
    [.html]. *)
Theorem findall_links_one_char contents link :
  link ∈ findall_links contents →
  String.length link = 1%nat ∧ endswith link ".html" = false.
Proof.
  intros Hlen%findall_from_one_char. split; [done|].
  destruct (endswith link ".html") eqn:Hhtml; [|done].
  apply endswith_length in Hhtml. cbn in Hhtml. lia.
Qed.

Lemma findall_links_one_char_witness :
  "x" ∈ findall_links
          (String.append "<a href="
             (String quote (String.append "x" (String quote ">")))) ∧
  String.length "x" = 1%nat ∧ endswith "x" ".html" = false.
Proof.
  assert (Hin : "x" ∈ findall_links
            (String.append "<a href="
               (String quote (String.append "x" (String quote ">")))))
    by (vm_compute; left).
  split; [exact Hin|].
  exact (findall_links_one_char _ "x" Hin).
Defined.

Lemma crawl_pages_no_links directory :
  no_links (crawl_pages findall_links directory).
Proof.
  intros page links. unfold crawl_pages. rewrite lookup_fmap, lookup_extracted.
  destruct (directory !! page) as [contents|]; [|done]. cbn.
  destruct (endswith page ".html"); [|done]. cbn. intros [= <-].
  apply set_eq. intros link. split; [|by intros ?%not_elem_of_empty].
  rewrite elem_of_filter, dom_extracted, elem_of_difference, elem_of_list_to_set.
  intros (Hkey & Hfound & _). exfalso.
  apply findall_from_one_char in Hfound.
  unfold html_files in Hkey.
  apply elem_of_filter in Hkey as [Hhtml%endswith_length _].
  cbn in Hhtml. lia.
Qed.

(** X4: with the pattern as written, [crawl] finds no link at all: every
    page of its result has an empty out-set (a link has one character,
    a key at least five). *)
Theorem crawl_no_links directory :
  ∃ pages,
    crawl directory = Ok pages ∧
    dom pages = html_files directory ∧
    no_links pages.
Proof.
  exists (crawl_pages findall_links directory).
  split; [apply crawl_with_eq|]. split; [apply dom_crawl_pages|].
  apply crawl_pages_no_links.
Qed.

(** ** Ranks that the first round leaves unchanged *)

(** When a round does not change the previous ranks, the loop exits at
    once with the ranks of that round. *)
Lemma iterate_loop_fixed corpus d st fuel :
  loop_inv corpus st →
  (∀ p, p ∈ dom corpus →
        next_rank corpus d (st_prev_rank st) p == val (st_prev_rank st) p) →
  iterate_loop (S fuel) corpus d st
  = Some (Ok (next_ranks corpus d (st_prev_rank st))).
Proof.
  intros Hinv Hfix. cbn [iterate_loop].
  destruct (loop_body_cases corpus d st Hinv) as [[_ ->]|[Hn _]]; [done|].
  destruct Hn. intros p Hp. rewrite val_next_ranks by done.
  specialize (Hfix p Hp). apply Qabs_Qlt_condition. unfold threshold. split; lra.
Qed.

Lemma next_rank_uniform_balanced corpus d p :
  balanced corpus → p ∈ dom corpus →
  next_rank corpus d (uniform_rank corpus) p == 1 / Qlen (size corpus).
Proof.
  intros Hbal Hp. rewrite next_rank_spread. unfold spread.
  rewrite (sumQ_ext _ (λ it, (1 / Qlen (size corpus)) * weight corpus p it)).
  - rewrite sumQ_scale, (Hbal p Hp). unfold Qdiv. ring.
  - intros [q links] Hit%elem_of_map_to_list. cbn [fst].
    rewrite val_uniform_rank by (apply elem_of_dom; by eexists). ring.
Qed.

Lemma no_links_balanced corpus : no_links corpus → balanced corpus.
Proof.
  intros Hno p Hp.
  rewrite (sumQ_ext _ (λ _, 1 / Qlen (size corpus))).
  - rewrite sumQ_const. unfold items. rewrite length_map_to_list.
    assert (size corpus ≠ 0%nat) as Hk%Qlen_neq0.
    { apply elem_of_dom in Hp as [links Hp]. by eapply size_pos_lookup. }
    by field.
  - intros [q links] Hit%elem_of_map_to_list. apply Hno in Hit as ->.
    unfold weight, effective_links. cbn [snd].
    rewrite (decide_True (P := size (∅ : gset string) = 0%nat)) by apply size_empty.
    rewrite decide_True by done. by rewrite size_dom.
Qed.

Lemma iterate_pagerank_uniform corpus d fuel :
  balanced corpus →
  iterate_pagerank (S fuel) corpus d
  = Some (Ok (next_ranks corpus d (uniform_rank corpus))).
Proof.
  intros Hbal. destruct (initial_state_uniform corpus) as (flg & Hinit & Hinv).
  unfold iterate_pagerank. rewrite Hinit.
  rewrite (iterate_loop_fixed corpus d _ fuel Hinv); [done|].
  intros p Hp. cbn [st_prev_rank].
  by rewrite next_rank_uniform_balanced, val_uniform_rank.
Qed.

(** X5: on a corpus where the shares of rank each page receives add up
    to 1 (every page of a cycle, a corpus without links, ...), the
    uniform ranks are a fixed point: [iterate_pagerank] returns after
    the first round, and every page has rank [1/k], for every damping
    factor. *)
Theorem iterate_pagerank_balanced corpus d fuel :
  balanced corpus →
  ∃ pagerank,
    iterate_pagerank (S fuel) corpus d = Some (Ok pagerank) ∧
    dom pagerank = dom corpus ∧
    ∀ p, p ∈ dom corpus →
         ∃ v, pagerank !! p = Some v ∧ v == 1 / Qlen (size corpus).
Proof.
  intros Hbal. eexists. split; [by apply iterate_pagerank_uniform|].
  split; [apply dom_next_ranks|]. intros p Hp.
  exists (next_rank corpus d (uniform_rank corpus) p). split.
  - unfold next_ranks. by rewrite lookup_fill, decide_True by by apply elem_of_keys.
  - by apply next_rank_uniform_balanced.
Qed.

Lemma two_cycle_balanced : balanced two_cycle.
Proof.
  intros p Hp.
  assert (p = "a" ∨ p = "b") as [-> | ->]; [|by vm_compute..].
  assert (Hdom : dom two_cycle = {["a"; "b"]})
    by (apply (bool_decide_unpack (dom two_cycle = {["a"; "b"]})); by vm_compute).
  rewrite Hdom in Hp. set_solver.
Qed.

Lemma iterate_pagerank_balanced_witness :
  ∃ pagerank v,
    iterate_pagerank 1 two_cycle (85 # 100) = Some (Ok pagerank) ∧
    pagerank !! "a" = Some v ∧ v == 1 / Qlen (size two_cycle).
Proof.
  destruct (iterate_pagerank_balanced two_cycle (85 # 100) 0 two_cycle_balanced)
    as (pagerank & Hrun & _ & Hv).
  destruct (Hv "a") as (v & Hlook & Heq).
  - apply (bool_decide_unpack ("a" ∈ dom two_cycle)). by vm_compute.
  - by exists pagerank, v.
Defined.

(** X6: [crawl] followed by [iterate_pagerank], as [main] runs them:
    whatever the directory holds, the solver returns after its first
    round, with one entry per file name ending in [.html], each of
    value [1/k] for [k] such files. *)
Theorem crawl_iterate_uniform directory d fuel :
  ∃ pages pagerank,
    crawl directory = Ok pages ∧
    iterate_pagerank (S fuel) pages d = Some (Ok pagerank) ∧
    dom pagerank = html_files directory ∧
    ∀ p, p ∈ html_files directory →
         ∃ v, pagerank !! p = Some v ∧
              v == 1 / Qlen (size (html_files directory)).
Proof.
  set (pages := crawl_pages findall_links directory).
  pose proof (no_links_balanced pages (crawl_pages_no_links directory)) as Hbal.
  pose proof (dom_crawl_pages findall_links directory) as Hdom. fold pages in Hdom.
  exists pages, (next_ranks pages d (uniform_rank pages)).
  split; [apply crawl_with_eq|].
  split; [by apply iterate_pagerank_uniform|].
  split; [by rewrite dom_next_ranks|].
  intros p Hp. rewrite <- Hdom in Hp.
  exists (next_rank pages d (uniform_rank pages) p). split.
  - unfold next_ranks. by rewrite lookup_fill, decide_True by by apply elem_of_keys.
  - rewrite next_rank_uniform_balanced by done. by rewrite <- Hdom, size_dom.
Qed.

(** ** Bounds on the ranks *)







(** ** How close the result is to a fixed point *)




(** ** Links that leave the corpus *)

Lemma Qlen_add n m : Qlen (n + m) == Qlen n + Qlen m.
Proof. unfold Qlen. by rewrite Nat2Z.inj_add, inject_Z_plus. Qed.

Lemma size_inside_outside (avail keys : gset string) :
  size avail = (size (avail ∩ keys) + size (avail ∖ keys))%nat.
Proof.
  rewrite <- size_union by set_solver. f_equal. apply set_eq. intros x.
  rewrite elem_of_union, elem_of_intersection, elem_of_difference.
  destruct (decide (x ∈ keys)); tauto.
Qed.

Lemma transition_total_dangling corpus page d avail :
  corpus !! page = Some avail → size avail ≠ 0%nat →
  total (fill (keys corpus) (transition_value corpus avail d) ∅)
  == 1 - d * (Qlen (size (avail ∖ dom corpus)) / Qlen (size avail)).
Proof.
  intros Hpage Hm.
  rewrite total_fill, transition_value_sum by by eapply size_pos_lookup.
  rewrite decide_False by done.
  pose proof (size_inside_outside avail (dom corpus)) as Hsplit.
  assert (Hq : Qlen (size avail)
               == Qlen (size (avail ∩ dom corpus)) + Qlen (size (avail ∖ dom corpus)))
    by (by rewrite Hsplit at 1; rewrite Qlen_add).
  apply Qlen_neq0 in Hm.
  assert (Hin : Qlen (size (avail ∩ dom corpus))
                == Qlen (size avail) - Qlen (size (avail ∖ dom corpus))) by lra.
  rewrite Hin. by field.
Qed.

(** X9: for every corpus and page of it with a non-empty out-set, the
    values [transition_model] returns add up to [1 - d * x / m], where
    [x] of the [m] links of the page are not pages of the corpus: each
    such link loses the share [d / m]. *)
Theorem transition_model_total corpus page d avail :
  corpus !! page = Some avail → size avail ≠ 0%nat →
  ∃ probability,
    transition_model corpus page d = Ok probability ∧
    total probability
    == 1 - d * (Qlen (size (avail ∖ dom corpus)) / Qlen (size avail)) ∧
    (0 < d → ¬ avail ⊆ dom corpus → total probability < 1).
Proof.
  intros Hpage Hm. eexists. split; [by apply transition_model_fill|].
  pose proof (transition_total_dangling corpus page d avail Hpage Hm) as Htot.
  split; [exact Htot|]. intros Hd Hout. rewrite Htot.
  assert (Hx : size (avail ∖ dom corpus) ≠ 0%nat).
  { intros Hsz%size_empty_iff. apply Hout. set_solver. }
  apply Qlen_pos in Hx, Hm.
  assert (0 < Qlen (size (avail ∖ dom corpus)) / Qlen (size avail))
    by (apply Qlt_shift_div_l; [done|lra]).
  nra.
Qed.

Lemma transition_model_total_witness :
  ∃ probability,
    transition_model dangling "a" (85 # 100) = Ok probability ∧
    total probability < 1.
Proof.
  destruct (transition_model_total dangling "a" (85 # 100) {["b"; "x"]})
    as (probability & Hrun & _ & Hlt).
  - reflexivity.
  - by vm_compute.
  - exists probability. split; [exact Hrun|]. apply Hlt; [reflexivity|].
    apply (bool_decide_unpack (¬ ({["b"; "x"]} : gset string) ⊆ dom dangling)).
    by vm_compute.
Defined.

Lemma np_random_choice_rejects u (probabilities : gmap string Q) :
  atol < Qabs (total probabilities - 1) →
  np_random_choice u (keys probabilities) (items probabilities).*2
  = Raise ValueError.
Proof.
  intros Hbad. unfold np_random_choice.
  repeat (case_match; [done|]).
  by destruct (decide (atol < Qabs (Qsum (items probabilities).*2 - 1))).
Qed.

(** X10: when the start page has a link that is not a page of the
    corpus, by so much that the transition probabilities miss 1 by more
    than the tolerance of [numpy.random.choice], [sample_pagerank] with
    a positive sample count raises [ValueError]. *)
Theorem sample_pagerank_dangling seed uniform corpus d n start avail :
  random_choice seed (keys corpus) = Ok start →
  corpus !! start = Some avail → size avail ≠ 0%nat →
  atol < Qabs (d * (Qlen (size (avail ∖ dom corpus)) / Qlen (size avail))) →
  (0 < n)%Z →
  sample_pagerank seed uniform corpus d n = Raise ValueError.
Proof.
  intros Hstart Hpage Hm Hgap Hn.
  unfold sample_pagerank, sample_walk, range. rewrite Hstart, bind_Ok.
  destruct (Z.to_nat n) as [|m] eqn:Hnat; [lia|]. cbn [seq for_each].
  assert (Hstep : sample_step uniform corpus d 0 [start] = Raise ValueError);
    [|by rewrite Hstep].
  unfold sample_step. change (list_getitem [start] 0) with (Ok start).
  rewrite bind_Ok, (transition_model_fill _ _ _ _ Hpage), bind_Ok.
  rewrite np_random_choice_rejects; [done|].
  rewrite (transition_total_dangling corpus start d avail Hpage Hm).
  eapply Qlt_le_trans; [exact Hgap|]. rewrite <- Qabs_opp.
  apply Qle_lteq. right. apply Qabs_wd. ring.
Qed.

Lemma sample_pagerank_dangling_witness :
  sample_pagerank 0 (λ _, 0) dangling (85 # 100) 5 = Raise ValueError.
Proof.
  apply (sample_pagerank_dangling 0 (λ _, 0) dangling (85 # 100) 5 "a" {["b"; "x"]}).
  - by vm_compute.
  - reflexivity.
  - by vm_compute.
  - by vm_compute.
  - reflexivity.
Defined.

(** ** A directory without pages *)

(** X11: for a directory without a file name ending in [.html],
    [crawl] returns the empty corpus; on it [sample_pagerank] raises
    [IndexError], and [iterate_pagerank] returns the empty dictionary
    without any round failing. *)
Theorem crawl_empty directory seed uniform d n fuel :
  html_files directory = ∅ →
  crawl directory = Ok ∅ ∧
  sample_pagerank seed uniform ∅ d n = Raise IndexError ∧
  iterate_pagerank (S fuel) ∅ d = Some (Ok ∅).
Proof.
  intros Hnone. split; [|split; reflexivity].
  unfold crawl. rewrite crawl_with_eq. f_equal.
  apply (dom_empty_inv_L (D := gset string)).
  by rewrite dom_crawl_pages.
Qed.

Lemma crawl_empty_witness :
  crawl {["notes.txt" := "<a href=x>"]} = Ok ∅ ∧
  sample_pagerank 0 (λ _, 0) ∅ (85 # 100) 10000 = Raise IndexError ∧
  iterate_pagerank 1 ∅ (85 # 100) = Some (Ok ∅).
Proof.
  apply (crawl_empty {["notes.txt" := "<a href=x>"]} 0 (λ _, 0) (85 # 100) 10000 0).
  apply (bool_decide_unpack (html_files {["notes.txt" := "<a href=x>"]} = ∅)).
  by vm_compute.
Defined.


(** ** Directories whose files need not be readable *)

Lemma for_each_items_in {A B} (h : string → A → option B)
    (body : string * A → gmap string B → result (gmap string B))
    (d : gmap string A) :
  (∀ f c s, d !! f = Some c →
     body (f, c) s
     = Ok (match h f c with Some v => <[f := v]> s | None => s end)) →
  for_each (items d) body ∅ = Ok (map_imap h d).
Proof.
  intros Hbody.
  assert (Hloop : ∀ l s, NoDup l.*1 → (∀ f c, (f, c) ∈ l → d !! f = Some c) →
    ∃ m, for_each l body s = Ok m ∧
         ∀ f, m !! f = match (list_to_map l : gmap string A) !! f with
                       | Some c => match h f c with
                                   | Some v => Some v
                                   | None => s !! f
                                   end
                       | None => s !! f
                       end).
  { induction l as [|[f0 c0] l IH]; intros s Hnd Hin.
    - exists s. split; [done|]. intros f. by rewrite list_to_map_nil, lookup_empty.
    - apply NoDup_cons in Hnd as [Hf0 Hnd]. cbn [for_each].
      rewrite Hbody, bind_Ok by (apply Hin; left).
      destruct (IH (match h f0 c0 with Some v => <[f0 := v]> s | None => s end) Hnd)
        as (m & Hm & Hlook); [intros; apply Hin; by right|].
      exists m. split; [done|]. intros f. rewrite Hlook, list_to_map_cons.
      destruct (decide (f = f0)) as [->|Hne].
      + rewrite lookup_insert_eq.
        rewrite (not_elem_of_list_to_map_1 (M := gmap string) _ _ Hf0).
        destruct (h f0 c0); [by rewrite lookup_insert_eq|done].
      + rewrite lookup_insert_ne by done.
        destruct (list_to_map l !! f) as [c|]; [destruct (h f c); [done|]|];
          destruct (h f0 c0); by rewrite ?lookup_insert_ne. }
  destruct (Hloop (items d) ∅ (NoDup_fst_map_to_list d)) as (m & Hm & Hlook).
  { intros f c. apply elem_of_map_to_list. }
  rewrite Hm. f_equal. apply map_eq. intros f.
  rewrite Hlook, map_lookup_imap. unfold items. rewrite list_to_map_to_list.
  destruct (d !! f) as [c|]; cbn; [|by rewrite lookup_empty].
  destruct (h f c); [done|by rewrite lookup_empty].
Qed.

Lemma lookup_texts directory filename :
  texts directory !! filename
  = file ← directory !! filename;
    match file with Ok contents => Some contents | Raise _ => None end.
Proof. unfold texts. by rewrite lookup_omap. Qed.

Lemma html_files_texts directory :
  readable directory → html_files (texts directory) = html_files directory.
Proof.
  intros Hread. apply set_eq. intros f. unfold html_files.
  rewrite !elem_of_filter, !elem_of_dom, lookup_texts.
  split; intros [Hhtml [x Hx]]; (split; [done|]).
  - destruct (directory !! f); [by eexists|done].
  - destruct (Hread f x Hx Hhtml) as [contents ->]. rewrite Hx. by eexists.
Qed.

(** When the files named [.html] can be read, [crawl] is [crawl] on
    their texts. *)
Lemma crawl_files_readable findall directory :
  readable directory →
  crawl_files findall directory = Ok (crawl_pages findall (texts directory)).
Proof.
  intros Hread. unfold crawl_files.
  rewrite (for_each_items_in (λ filename file,
    if endswith filename ".html"
    then match file with
         | Ok contents => Some (list_to_set (findall contents) ∖ {[filename]})
         | Raise _ => None
         end
    else None)).
  - rewrite bind_Ok.
    assert (Hsame : map_imap (λ filename file,
              if endswith filename ".html"
              then match file with
                   | Ok contents => Some (list_to_set (findall contents) ∖ {[filename]})
                   | Raise _ => None
                   end
              else None) directory = extracted findall (texts directory)).
    { apply map_eq. intros f.
      rewrite lookup_extracted, map_lookup_imap, lookup_texts.
      destruct (directory !! f) as [[c|e]|]; cbn; try done.
      by destruct (endswith f ".html"). }
    rewrite Hsame. apply for_each_filter_links.
  - intros f file s Hf. destruct (endswith f ".html") eqn:Hhtml; [|done]. cbn.
    by destruct (Hread f file Hf Hhtml) as [contents ->].
Qed.

(** When a file named [.html] cannot be read, [crawl] raises the
    exception of such a file. *)
Lemma crawl_files_unreadable findall directory filename e :
  directory !! filename = Some (Raise e) → endswith filename ".html" = true →
  ∃ filename' e',
    directory !! filename' = Some (Raise e') ∧
    endswith filename' ".html" = true ∧
    crawl_files findall directory = Raise e'.
Proof.
  intros Hbad Hhtml. unfold crawl_files.
  assert (Hloop : ∀ l (s : gmap string (gset string)),
    (∀ f file, (f, file) ∈ l → directory !! f = Some file) →
    (filename, Raise e) ∈ l →
    ∃ filename' e',
      directory !! filename' = Some (Raise e') ∧
      endswith filename' ".html" = true ∧
      for_each l (λ '(filename, file) (pages : gmap string (gset string)),
        if negb (endswith filename ".html") then Ok pages
        else
          contents ← file;
          let links := findall contents in
          Ok (<[filename := list_to_set links ∖ {[filename]}]> pages)) s
      = Raise e').
  { induction l as [|[f0 file0] l IH]; intros s Hin Hmem;
      [by apply elem_of_nil in Hmem|].
    cbn [for_each].
    destruct (endswith f0 ".html") eqn:Hf0; cbn [negb].
    - destruct file0 as [contents|e0].
      + rewrite !bind_Ok. apply IH; [intros; apply Hin; by right|].
        apply elem_of_cons in Hmem as [[= _ ?]|Hmem]; done.
      + exists f0, e0. split; [apply Hin; left|]. by split.
    - rewrite bind_Ok. apply IH; [intros; apply Hin; by right|].
      apply elem_of_cons in Hmem as [[= -> _]|Hmem]; [congruence|done]. }
  destruct (Hloop (items directory) ∅) as (f' & e' & Hf' & Hhtml' & Hrun).
  - intros f file. apply elem_of_map_to_list.
  - by apply elem_of_map_to_list.
  - exists f', e'. split; [done|]. split; [done|].
    match goal with
    | |- ?x ≫= _ = _ =>
        replace x with (@Raise (gmap string (gset string)) e')
          by (symmetry; exact Hrun)
    end.
    done.
Qed.

(** A name that ends in [.html] does not end in a NUL character. *)
Lemma endswith_html_rstrip_nul filename :
  endswith filename ".html" = true → rstrip_nul filename = filename.
Proof.
  induction filename as [|c s IH]; [done|]. intros Hhtml.
  destruct (decide (5 ≤ String.length s)%nat) as [Hlong|Hshort].
  - assert (Hs : endswith s ".html" = true).
    { unfold endswith in *. apply andb_prop in Hhtml as [_ Heq].
      apply andb_true_intro. split; [by apply Nat.leb_le|].
      replace (String.length (String c s) - String.length ".html")%nat
        with (S (String.length s - String.length ".html")) in Heq
        by (cbn [String.length]; cbn; lia).
      exact Heq. }
    cbn [rstrip_nul]. rewrite (IH Hs).
    assert (String.eqb s EmptyString = false) as ->
      by (apply String.eqb_neq; intros ->; cbn in Hlong; lia).
    by rewrite andb_false_r.
  - pose proof (endswith_length _ _ Hhtml) as Hlen.
    unfold endswith in Hhtml. apply andb_prop in Hhtml as [_ Heq].
    destruct s as [|c2 [|c3 [|c4 [|c5 [|c6 s]]]]];
      cbn in Hlen, Hshort; try lia.
    cbn in Heq.
    repeat match type of Heq with
           | context [Ascii.eqb ?a ?b] =>
               destruct (Ascii.eqb_spec a b); [subst|discriminate]
           end.
    reflexivity.
Qed.

Lemma crawl_pages_nul_free findall directory :
  nul_free (crawl_pages findall directory).
Proof.
  intros page. rewrite dom_crawl_pages. unfold html_files.
  intros [Hhtml _]%elem_of_filter. by apply endswith_html_rstrip_nul.
Qed.

(** ** [main] *)

Lemma sorted_keys_perm {A} (d : gmap string A) : sorted_keys d ≡ₚ keys d.
Proof. apply merge_sort_Permutation. Qed.

Lemma elem_of_sorted_keys {A} (d : gmap string A) k :
  k ∈ sorted_keys d ↔ k ∈ dom d.
Proof. by rewrite sorted_keys_perm, elem_of_keys. Qed.

Lemma sorted_keys_sorted {A} (d : gmap string A) :
  StronglySorted String.le (sorted_keys d).
Proof. apply StronglySorted_merge_sort; apply _. Qed.

Lemma sorted_keys_dom {A B} (d : gmap string A) (d' : gmap string B) :
  dom d = dom d' → sorted_keys d = sorted_keys d'.
Proof.
  intros Hdom. apply (StronglySorted_unique String.le);
    [apply sorted_keys_sorted..|].
  by rewrite !sorted_keys_perm, (keys_perm d d').
Qed.

Lemma print_ranks_eq ranks stdout :
  print_ranks ranks stdout = Ok (stdout ++ rank_lines ranks).
Proof.
  unfold print_ranks, rank_lines.
  assert (Hin : ∀ page, page ∈ sorted_keys ranks → page ∈ dom ranks)
    by (intros page; by rewrite elem_of_sorted_keys).
  revert stdout Hin. induction (sorted_keys ranks) as [|page l IH]; intros stdout Hin.
  - cbn. by rewrite app_nil_r.
  - cbn [for_each]. rewrite getitem_val by (apply Hin; left).
    rewrite !bind_Ok, IH by (intros; apply Hin; by right).
    by rewrite fmap_cons, <- app_assoc.
Qed.

Lemma sample_pagerank_ok seed uniform corpus d n :
  closed corpus → nul_free corpus → corpus ≠ ∅ → 0 < d → d < 1 → (0 ≤ n)%Z →
  (∀ i, 0 <= uniform i ∧ uniform i < 1) →
  ∃ ranks,
    sample_pagerank seed uniform corpus d n = Ok ranks ∧
    dom ranks = dom corpus ∧
    (∀ p v, ranks !! p = Some v → 0 <= v) ∧
    total ranks == 1.
Proof.
  intros Hclosed Hnul Hne Hd0 Hd1 Hn Hu.
  destruct (random_choice_ok seed corpus Hne) as (start & Hstart & Hin).
  destruct (walk_loop uniform corpus d Hclosed Hnul Hd0 Hd1 Hu (Z.to_nat n) 0 [start])
    as (sample & Hloop & Hlen & Hall & _);
    [done|by apply Forall_singleton|].
  assert (Hsample : sample ≠ []) by (intros ->; done).
  destruct (frequencies_distribution corpus sample Hsample Hall)
    as (ranks & Hfreq & Hdom & _ & Hpos & Htot).
  exists ranks. split; [|done].
  unfold sample_pagerank, sample_walk, range. by rewrite Hstart, bind_Ok, Hloop, bind_Ok.
Qed.

Lemma html_files_empty_readable (directory : gmap string (result string)) :
  html_files directory = ∅ → readable directory.
Proof.
  intros Hnone filename file Hfile Hhtml. exfalso.
  apply (not_elem_of_empty (C := gset string) filename). rewrite <- Hnone.
  unfold html_files. apply elem_of_filter. split; [done|].
  apply elem_of_dom. by eexists.
Qed.

(** X12: [main] with a number of arguments other than one exits with
    the usage message; with one argument naming a directory without a
    file name ending in [.html], it ends with an uncaught [IndexError]
    (raised by [sample_pagerank]) before anything is printed. *)
Theorem main_failures argv listdir seed uniform fuel :
  (length argv ≠ 2%nat →
   main argv listdir seed uniform fuel
   = Some (SystemExit "Usage:python pagerank.py corpus ")) ∧
  (∀ script name,
     argv = [script; name] → html_files (listdir name) = ∅ →
     main argv listdir seed uniform fuel = Some (Uncaught IndexError [])).
Proof.
  split.
  - intros Hlen. unfold main. by rewrite decide_True.
  - intros script name -> Hnone. unfold main.
    rewrite decide_False by (cbn; lia).
    change (list_getitem [script; name] 1) with (Ok name). rewrite bind_Ok.
    pose proof (html_files_empty_readable _ Hnone) as Hread.
    rewrite (crawl_files_readable _ _ Hread).
    assert (crawl_pages findall_links (texts (listdir name)) = ∅) as ->; [|done].
    apply (dom_empty_inv_L (D := gset string)).
    by rewrite dom_crawl_pages, html_files_texts.
Qed.

Lemma main_failures_witness :
  main ["pagerank.py"] (λ _, ∅) 0 (λ _, 0) 1
  = Some (SystemExit "Usage:python pagerank.py corpus ") ∧
  main ["pagerank.py"; "corpus0"] (λ _, {["notes.txt" := Ok "n"]}) 0 (λ _, 0) 1
  = Some (Uncaught IndexError []).
Proof.
  split.
  - apply (main_failures ["pagerank.py"] (λ _, ∅) 0 (λ _, 0) 1). cbn. lia.
  - apply (proj2 (main_failures ["pagerank.py"; "corpus0"]
                    (λ _, {["notes.txt" := Ok "n"]}) 0 (λ _, 0) 1)
             "pagerank.py" "corpus0"); [reflexivity|].
    apply (bool_decide_unpack
             (html_files ({["notes.txt" := Ok "n"]} : gmap string (result string)) = ∅)).
    by vm_compute.
Defined.

(** X13: [main] with one argument naming an existing directory that has
    a file name ending in [.html], for every random source with
    variates in [0,1).  When every file of the directory named [.html]
    can be opened and read as text, [main] runs to its end: it prints
    the sampling header, one rank line per such file name in ascending
    order, the iteration header, and again one rank line per file name
    in ascending order; the sampled ranks add up to 1 and every iterated
    rank is [1/k].  When some file named [.html] cannot be opened or
    read, [main] ends with the uncaught exception of such a file before
    anything is printed. *)
Theorem main_report argv listdir seed uniform fuel script name :
  argv = [script; name] → html_files (listdir name) ≠ ∅ →
  (∀ i, 0 <= uniform i ∧ uniform i < 1) →
  (readable (listdir name) →
   ∃ sampled iterated,
     main argv listdir seed uniform (S fuel)
     = Some (Finished
               ([Text "PageRank Results from Sampling (n = 10000)"]
                ++ rank_lines sampled
                ++ [Text "PageRank Results from Iteration"]
                ++ rank_lines iterated)) ∧
     dom sampled = html_files (listdir name) ∧
     dom iterated = html_files (listdir name) ∧
     StronglySorted String.le (sorted_keys sampled) ∧
     sorted_keys sampled ≡ₚ elements (html_files (listdir name)) ∧
     sorted_keys iterated = sorted_keys sampled ∧
     (∀ p v, sampled !! p = Some v → 0 <= v) ∧
     total sampled == 1 ∧
     (∀ p v, iterated !! p = Some v →
             v == 1 / Qlen (size (html_files (listdir name))))) ∧
  (∀ filename e,
     listdir name !! filename = Some (Raise e) →
     endswith filename ".html" = true →
     ∃ filename' e',
       listdir name !! filename' = Some (Raise e') ∧
       endswith filename' ".html" = true ∧
       main argv listdir seed uniform fuel = Some (Uncaught e' [])).
Proof.
  intros -> Hsome Hu. split.
  - intros Hread.
    set (pages := crawl_pages findall_links (texts (listdir name))).
    assert (Hdom : dom pages = html_files (listdir name))
      by (unfold pages; by rewrite dom_crawl_pages, html_files_texts).
    pose proof (no_links_balanced pages (crawl_pages_no_links _)) as Hbal.
    destruct (sample_pagerank_ok seed uniform pages DAMPING SAMPLES)
      as (sampled & Hsample & Hsdom & Hpos & Htot);
      [apply crawl_pages_closed|apply crawl_pages_nul_free|
       |reflexivity|reflexivity|done|done|].
    { intros Hempty. apply Hsome. by rewrite <- Hdom, Hempty, dom_empty_L. }
    exists sampled, (next_ranks pages DAMPING (uniform_rank pages)).
    assert (Hkeys : sorted_keys (next_ranks pages DAMPING (uniform_rank pages))
                    = sorted_keys sampled).
    { apply sorted_keys_dom. by rewrite dom_next_ranks. }
    split.
    { unfold main. rewrite decide_False by (cbn; lia).
      change (list_getitem [script; name] 1) with (Ok name). rewrite bind_Ok.
      rewrite (crawl_files_readable _ _ Hread). fold pages.
      rewrite Hsample, print_ranks_eq, (iterate_pagerank_uniform pages DAMPING fuel Hbal).
      rewrite print_ranks_eq. cbn [app]. by rewrite <- !app_assoc. }
    split; [by rewrite Hsdom|]. split; [by rewrite dom_next_ranks|].
    split; [apply sorted_keys_sorted|].
    split; [by rewrite sorted_keys_perm, keys_elements, Hsdom, Hdom|].
    split; [done|]. split; [done|]. split; [done|].
    intros p v. unfold next_ranks. rewrite lookup_fill.
    case_decide as Hp; [|by rewrite lookup_empty]. intros [= <-].
    etransitivity; [apply next_rank_uniform_balanced; [done|by apply elem_of_keys]|].
    by rewrite <- Hdom, size_dom.
  - intros filename e Hbad Hhtml.
    destruct (crawl_files_unreadable findall_links _ _ _ Hbad Hhtml)
      as (filename' & e' & Hbad' & Hhtml' & Hrun).
    exists filename', e'. split; [done|]. split; [done|].
    unfold main. rewrite decide_False by (cbn; lia).
    change (list_getitem [script; name] 1) with (Ok name).
    by rewrite bind_Ok, Hrun.
Qed.

Lemma main_report_witness :
  ∃ sampled iterated,
    main ["pagerank.py"; "corpus0"] (λ _, Ok <$> example_directory) 1
      (λ i, Z.of_nat (i mod 7) # 7) 1
    = Some (Finished
              ([Text "PageRank Results from Sampling (n = 10000)"]
               ++ rank_lines sampled
               ++ [Text "PageRank Results from Iteration"]
               ++ rank_lines iterated)) ∧
    total sampled == 1.
Proof.
  destruct (main_report ["pagerank.py"; "corpus0"]
              (λ _, Ok <$> example_directory) 1
              (λ i, Z.of_nat (i mod 7) # 7) 0 "pagerank.py" "corpus0")
    as [Hreport _].
  - reflexivity.
  - apply (bool_decide_unpack
             (html_files (Ok <$> example_directory : gmap string (result string)) ≠ ∅)).
    by vm_compute.
  - intros i. unfold Qle, Qlt. cbn.
    pose proof (Nat.mod_upper_bound i 7). lia.
  - destruct Hreport as (sampled & iterated & Hrun & _ & _ & _ & _ & _ & _ & Htot & _).
    + intros filename file. rewrite lookup_fmap.
      destruct (example_directory !! filename) as [contents|]; [|done].
      intros [= <-] _. by exists contents.
    + exists sampled, iterated. split; [exact Hrun|exact Htot].
Defined.
